(** * Probabilistic suffix trees (src/pst.py): a shallow embedding

    The Python module defines three classes, [Node], [PST] and [PST_model].
    They are embedded below as three modules of the same names.

    Modelling choices.
    - Event labels are strings, compared with [String.eqb] (Python [==]).
    - Python integers (counts, levels, depths, the [power] counter) are [Z].
    - Transition probabilities are Python floats obtained by one true
      division [count / cnt_sum]; they are modelled by exact rationals [Q],
      compared with [Qeq] ([==]).
    - [Node.children] is a Python dict whose keys are [Node] objects (hashed
      by identity) and whose values are the bags [{'count': c, 'p': x}].  A
      dict keeps insertion order and nothing is ever deleted, so it is a list
      of (child, info) pairs.  The key ['p'] is absent until the evaluation
      pass has run: [p : option Q].
    - Every [Node] object is created in one place and stored in one dict, so
      the object graph is a tree and a child is owned by value.  The only
      references that the code takes into a dict are the results of
      [get_child_by_name], that is, the first entry carrying a given name;
      mutating such a reference is modelled by writing the new child back
      into that entry ([Node.write_back]).  The [parent] back-reference is
      used by the core only to compute [level], which is kept.
    - Exceptions are results: [Raise KeyError] and so on. *)

From Stdlib Require Import ZArith QArith Qfield String List Bool Lia.
Import ListNotations.

Open Scope Z_scope.

(** Event labels. *)
Abbreviation label := string.

(** ** Exceptions and the error monad *)

Inductive exn : Type := KeyError | IndexError | ZeroDivisionError.

Inductive result (A : Type) : Type :=
| Ok (a : A)
| Raise (e : exn).

Arguments Ok {A} a.
Arguments Raise {A} e.

Definition bind {A B : Type} (m : result A) (f : A -> result B) : result B :=
  match m with
  | Ok a => f a
  | Raise e => Raise e
  end.

Notation "x <- m ;; k" := (bind m (fun x => k))
  (at level 61, m at next level, right associativity).

Fixpoint mapM {A B : Type} (f : A -> result B) (l : list A) : result (list B) :=
  match l with
  | [] => Ok []
  | a :: rest => b <- f a ;; bs <- mapM f rest ;; Ok (b :: bs)
  end.

(** ** Python sequence primitives *)

(** [range(n)] *)
Definition py_range (n : Z) : list Z := map Z.of_nat (seq 0 (Z.to_nat n)).

(** How a slice bound is clamped: a negative bound counts from the end. *)
Definition slice_index (len i : Z) : Z :=
  if i <? 0 then Z.max (i + len) 0 else Z.min i len.

(** [l[start:stop]] *)
Definition py_slice {A : Type} (l : list A) (start stop : Z) : list A :=
  let n := Z.of_nat (length l) in
  let a := slice_index n start in
  let b := slice_index n stop in
  firstn (Z.to_nat (b - a)) (skipn (Z.to_nat a) l).

(** [len(l)] *)
Definition len {A : Type} (l : list A) : Z := Z.of_nat (length l).

(** [[x] * n] *)
Definition py_repeat {A : Type} (x : A) (n : Z) : list A := repeat x (Z.to_nat n).

(** What a query returns: [None], [np.NaN] or a number. *)
Inductive value : Type :=
| VNone
| VNaN
| VNum (q : Q).

(** ** class Node *)

Module Node.

Record info : Type := mkInfo { count : Z; p : option Q }.

Unset Elimination Schemes.
Inductive t : Type :=
| mk (name : label) (level : Z) (children : list (t * info)) (has_children : bool).
Set Elimination Schemes.

Definition name (self : t) : label := let 'mk n _ _ _ := self in n.
Definition level (self : t) : Z := let 'mk _ l _ _ := self in l.
Definition children (self : t) : list (t * info) := let 'mk _ _ c _ := self in c.
Definition has_children (self : t) : bool := let 'mk _ _ _ h := self in h.

(** [Node(parent, name)] *)
Definition init (parent : option t) (nm : label) : t :=
  mk nm (match parent with Some pa => level pa + 1 | None => 0 end) [] false.

(** The scan of [get_child_by_name] over the keys of the dict. *)
Fixpoint scan (l : list (t * info)) (nm : label) : option t :=
  match l with
  | [] => None
  | (child, _) :: rest => if String.eqb (name child) nm then Some child else scan rest nm
  end.

Definition get_child_by_name (self : t) (nm : label) : option t :=
  scan (children self) nm.

(** [d[child]] for a [child] that [get_child_by_name] returned: the bag of
    the first entry of that name; a missing key raises. *)
Fixpoint getitem (l : list (t * info)) (nm : label) : result info :=
  match l with
  | [] => Raise KeyError
  | (child, i) :: rest => if String.eqb (name child) nm then Ok i else getitem rest nm
  end.

(** [info['p']] *)
Definition get_p (i : info) : result Q :=
  match p i with
  | Some x => Ok x
  | None => Raise KeyError
  end.

(** [d[child]['count'] += 1], in place *)
Fixpoint incr_count (l : list (t * info)) (nm : label) : list (t * info) :=
  match l with
  | [] => []
  | (child, i) :: rest =>
      if String.eqb (name child) nm
      then (child, mkInfo (count i + 1) (p i)) :: rest
      else (child, i) :: incr_count rest nm
  end.

Definition add_child (self node : t) : t * t :=
  match get_child_by_name self (name node) with
  | Some child =>
      (mk (name self) (level self) (incr_count (children self) (name child)) true, child)
  | None =>
      (mk (name self) (level self) (children self ++ [(node, mkInfo 1 None)]) true, node)
  end.

(** The child object that [get_child_by_name self nm] refers to has been
    mutated into [child']: the entry keeps its place and its bag. *)
Fixpoint replace_key (l : list (t * info)) (nm : label) (child' : t) : list (t * info) :=
  match l with
  | [] => []
  | (child, i) :: rest =>
      if String.eqb (name child) nm
      then (child', i) :: rest
      else (child, i) :: replace_key rest nm child'
  end.

Definition write_back (self : t) (nm : label) (child' : t) : t :=
  mk (name self) (level self) (replace_key (children self) nm child') (has_children self).

(** The loop of [get_node_distance] over [self.children.items()]. *)
Fixpoint distance_loop (node : option t) (l : list (t * info)) (distance : Q) : result Q :=
  match l with
  | [] => Ok distance
  | (child1, info1) :: rest =>
      match node with
      | None =>
          p1 <- get_p info1 ;;
          distance_loop node rest (distance + p1 ^ 2)%Q
      | Some nd =>
          if existsb (String.eqb (name child1)) (map (fun e => name (fst e)) (children nd))
          then
            match get_child_by_name nd (name child1) with
            | Some child2 =>
                info2 <- getitem (children nd) (name child2) ;;
                p1 <- get_p info1 ;;
                p2 <- get_p info2 ;;
                distance_loop node rest (distance + (p1 - p2) ^ 2)%Q
            | None => Raise KeyError
            end
          else
            p1 <- get_p info1 ;;
            distance_loop node rest (distance + p1 ^ 2)%Q
      end
  end.

Definition get_node_distance (self : t) (node : option t) : result Q :=
  if negb (has_children self) then Ok 0%Q
  else distance_loop node (children self) 0%Q.

End Node.

(** ** class PST *)

Module PST.

Record t : Type := mk { root : Node.t; name : label; depth : Z; power : Z }.

(** The loop of [__init__]: [new_node] is handed to [add_child] and the
    loop goes on with [new_node] itself.  When [add_child] installs it (no
    child of that name yet, always so here since [node] is fresh) the rest
    of the chain grows below it in the tree; had [add_child] kept an older
    child instead, [new_node] would be detached and the rest of the loop
    would not touch the tree. *)
Fixpoint init_path (node : Node.t) (elems : list label) : Node.t :=
  match elems with
  | [] => node
  | element :: rest =>
      let new_node := Node.init (Some node) element in
      let node' := fst (Node.add_child node new_node) in
      match Node.get_child_by_name node element with
      | None => Node.write_back node' element (init_path new_node rest)
      | Some _ => node'
      end
  end.

(** [PST(init_chain)]; [init_chain[0]] raises on the empty chain. *)
Definition init (init_chain : list label) : result t :=
  match init_chain with
  | [] => Raise IndexError
  | first :: rest =>
      Ok (mk (init_path (Node.init None first) rest) first (len init_chain) 0)
  end.

(** The loop of [add_subchain]: [node = node.add_child(Node(node, element))]. *)
Fixpoint absorb (node : Node.t) (elems : list label) : Node.t :=
  match elems with
  | [] => node
  | element :: rest =>
      let (node', child) := Node.add_child node (Node.init (Some node) element) in
      Node.write_back node' (Node.name child) (absorb child rest)
  end.

Definition add_subchain (self : t) (subchain : list label) : t :=
  mk (absorb (root self) (tl subchain)) (name self) (depth self) (power self + 1).

(** [sum(i['count'] for i in node.children.values())] *)
Definition cnt_sum (l : list (Node.t * Node.info)) : Z :=
  fold_left (fun acc e => acc + Node.count (snd e)) l 0.

(** [count / cnt_sum]: true division, which raises on a zero divisor. *)
Definition true_div (a b : Z) : result Q :=
  if b =? 0 then Raise ZeroDivisionError else Ok (inject_Z a / inject_Z b)%Q.

(** The loop of [evaluate_node_probability] over [node.children]; [rec]
    stands for the recursive call and [s] for [cnt_sum]. *)
Section evaluate_children.
Variable rec : Node.t -> result Node.t.
Variable s : Z.

Fixpoint evaluate_children (l : list (Node.t * Node.info))
  : result (list (Node.t * Node.info)) :=
  match l with
  | [] => Ok []
  | (child, i) :: rest =>
      x <- true_div (Node.count i) s ;;
      child' <- rec child ;;
      rest' <- evaluate_children rest ;;
      Ok ((child', Node.mkInfo (Node.count i) (Some x)) :: rest')
  end.
End evaluate_children.

Fixpoint evaluate_node_probability (node : Node.t) : result Node.t :=
  match node with
  | Node.mk nm lv ch hc =>
      if len ch =? 0 then Ok node
      else
        ch' <- evaluate_children evaluate_node_probability (cnt_sum ch) ch ;;
        Ok (Node.mk nm lv ch' hc)
  end.

Definition evaluate_probability (self : t) : result t :=
  root' <- evaluate_node_probability (root self) ;;
  Ok (mk root' (name self) (depth self) (power self)).

(** The loop of [get_node_distance] over [node1.children]; [rec] stands
    for the recursive call. *)
Section distance_children.
Variable rec : Node.t -> option Node.t -> Q -> result Q.
Variable node2 : option Node.t.

Fixpoint distance_children (l : list (Node.t * Node.info)) (distance : Q) : result Q :=
  match l with
  | [] => Ok distance
  | (child1, _) :: rest =>
      match node2 with
      | None =>
          distance' <- rec child1 None distance ;;
          distance_children rest distance'
      | Some nd =>
          if existsb (String.eqb (Node.name child1))
                     (map (fun e => Node.name (fst e)) (Node.children nd))
          then
            distance' <- rec child1 (Node.get_child_by_name nd (Node.name child1)) distance ;;
            distance_children rest distance'
          else
            distance' <- rec child1 None distance ;;
            distance_children rest distance'
      end
  end.
End distance_children.

Fixpoint get_node_distance (node1 : Node.t) (node2 : option Node.t) (distance : Q) : result Q :=
  match node1 with
  | Node.mk _ _ ch hc =>
      if negb hc then Ok distance
      else
        d <- Node.get_node_distance node1 node2 ;;
        distance_children get_node_distance node2 ch (distance + d)%Q
  end.

Definition get_distance (self pst : t) : result Q :=
  get_node_distance (root self) (Some (root pst)) 0%Q.

End PST.

(** ** class PST_model *)

Module PST_model.

Record t : Type := mk { _depth : Z; trees : list PST.t }.

(** [PST_model(depth)] *)
Definition init (depth : Z) : t := mk depth [].

Fixpoint find_tree (l : list PST.t) (nm : label) : option PST.t :=
  match l with
  | [] => None
  | tree :: rest => if String.eqb (PST.name tree) nm then Some tree else find_tree rest nm
  end.

Definition get_PST_by_name (self : t) (nm : label) : option PST.t :=
  find_tree (trees self) nm.

Definition _get_subchains (self : t) (chain : list label) : list (list label) :=
  map (fun i => py_slice chain i (i + _depth self)) (py_range (len chain - _depth self)).

(** [get_PST_by_name(nm).add_subchain(subchain)]: the tree found is
    mutated where it sits in [self.trees]. *)
Fixpoint absorb_into (l : list PST.t) (nm : label) (subchain : list label) : list PST.t :=
  match l with
  | [] => []
  | tree :: rest =>
      if String.eqb (PST.name tree) nm
      then PST.add_subchain tree subchain :: rest
      else tree :: absorb_into rest nm subchain
  end.

(** One turn of the first loop of [fit]. *)
Definition fit_step (self : t) (subchain : list label) : result t :=
  match subchain with
  | [] => Raise IndexError
  | first :: _ =>
      match get_PST_by_name self first with
      | Some _ => Ok (mk (_depth self) (absorb_into (trees self) first subchain))
      | None =>
          new_pst <- PST.init subchain ;;
          Ok (mk (_depth self) (trees self ++ [new_pst]))
      end
  end.

Fixpoint fit_loop (self : t) (subchains : list (list label)) : result t :=
  match subchains with
  | [] => Ok self
  | subchain :: rest => self' <- fit_step self subchain ;; fit_loop self' rest
  end.

(** The second loop of [fit]. *)
Definition evaluate_trees (self : t) : result t :=
  trees' <- mapM PST.evaluate_probability (trees self) ;;
  Ok (mk (_depth self) trees').

(** [fit] on windows that are already cut. *)
Definition fit_subchains (self : t) (subchains : list (list label)) : result t :=
  self' <- fit_loop self subchains ;;
  evaluate_trees self'.

Definition fit (self : t) (chain : list label) : result t :=
  fit_subchains self (_get_subchains self chain).

(** The walk of [get_event_prob] below [pst.root]. *)
Fixpoint walk (node : Node.t) (prob : Q) (elems : list label) : result value :=
  match elems with
  | [] => Ok (VNum prob)
  | element :: rest =>
      match Node.get_child_by_name node element with
      | None => Ok (VNum 0)
      | Some child =>
          i <- Node.getitem (Node.children node) (Node.name child) ;;
          x <- Node.get_p i ;;
          walk child (prob * x)%Q rest
      end
  end.

Definition get_event_prob (self : t) (subchain : list label) : result value :=
  if negb (len subchain =? _depth self) then Ok VNone
  else
    match subchain with
    | [] => Raise IndexError
    | first :: rest =>
        match get_PST_by_name self first with
        | Some pst => walk (PST.root pst) 1%Q rest
        | None => Ok (VNum 0)
        end
    end.

Definition get_chain_prob (self : t) (chain : list label) : result (list value) :=
  probs <- mapM (get_event_prob self) (_get_subchains self chain) ;;
  Ok (py_repeat VNaN (_depth self) ++ probs).

End PST_model.

(** ** Vocabulary of the properties *)

(** Two returned values agree: numbers are compared as rationals. *)
Definition value_eq (v w : value) : Prop :=
  match v, w with
  | VNone, VNone => True
  | VNaN, VNaN => True
  | VNum a, VNum b => (a == b)%Q
  | _, _ => False
  end.

(** Every node of the tree below [n], [n] included. *)
Fixpoint subnodes (n : Node.t) : list Node.t :=
  match n with
  | Node.mk _ _ ch _ => n :: flat_map (fun e => subnodes (fst e)) ch
  end.

Definition all_nodes (P : Node.t -> bool) (n : Node.t) : bool :=
  forallb P (subnodes n).

(** The labels of the children, in dict order. *)
Definition labels (l : list (Node.t * Node.info)) : list label :=
  map (fun e => Node.name (fst e)) l.

Fixpoint distinctb (l : list label) : bool :=
  match l with
  | [] => true
  | x :: rest => negb (existsb (String.eqb x) rest) && distinctb rest
  end.

(** No two children of [n] carry the same label. *)
Definition distinct_labels (n : Node.t) : bool :=
  distinctb (labels (Node.children n)).

(** Every count stored at [n] is a positive integer. *)
Definition counts_positive (n : Node.t) : bool :=
  forallb (fun e => 1 <=? Node.count (snd e)) (Node.children n).

(** The flag [has_children] tells whether the dict is non-empty. *)
Definition flag_ok (n : Node.t) : bool :=
  Bool.eqb (Node.has_children n) (negb (len (Node.children n) =? 0)).

(** Every bag stored at [n] has its key ['p']. *)
Definition children_evaluated (n : Node.t) : bool :=
  forallb (fun e => match Node.p (snd e) with Some _ => true | None => false end)
          (Node.children n).

(** A tree on which the evaluation pass has run and nothing was absorbed since. *)
Definition evaluated (n : Node.t) : bool := all_nodes children_evaluated n.

Definition Qsum (l : list Q) : Q := fold_right Qplus 0%Q l.

(** The probabilities stored at the children of a node, when all are there. *)
Fixpoint probs (l : list (Node.t * Node.info)) : option (list Q) :=
  match l with
  | [] => Some []
  | (_, i) :: rest =>
      match Node.p i, probs rest with
      | Some x, Some xs => Some (x :: xs)
      | _, _ => None
      end
  end.

Definition child_probs (n : Node.t) : option (list Q) := probs (Node.children n).

(** The count and the probability on the edge from [n] to its child [lbl]. *)
Definition edge_count (n : Node.t) (lbl : label) : Z :=
  match Node.getitem (Node.children n) lbl with
  | Ok i => Node.count i
  | Raise _ => 0
  end.

Definition edge_prob (n : Node.t) (lbl : label) : option Q :=
  match Node.getitem (Node.children n) lbl with
  | Ok i => Node.p i
  | Raise _ => None
  end.

(** How many children of [n] are labelled [lbl]. *)
Definition occurrences (n : Node.t) (lbl : label) : nat :=
  length (filter (String.eqb lbl) (labels (Node.children n))).

(** The node reached from [n] along a path of labels. *)
Fixpoint descend (n : Node.t) (path : list label) : option Node.t :=
  match path with
  | [] => Some n
  | e :: rest =>
      match Node.get_child_by_name n e with
      | Some child => descend child rest
      | None => None
      end
  end.

(** Merging the candidates [cands], one after the other, into the same node. *)
Definition merge_all (self : Node.t) (cands : list Node.t) : Node.t :=
  fold_left (fun node cand => fst (Node.add_child node cand)) cands self.

(** The trees that the class [PST] can produce: constructed from a chain,
    then any number of absorptions and evaluation passes. *)
Inductive built : PST.t -> Prop :=
| built_init chain t : PST.init chain = Ok t -> built t
| built_add t subchain : built t -> built (PST.add_subchain t subchain)
| built_eval t t' : built t -> PST.evaluate_probability t = Ok t' -> built t'.

(** The three facts that hold at every node that the code builds. *)
Definition node_ok (n : Node.t) : bool :=
  distinct_labels n && counts_positive n && flag_ok n.

(** The probabilities stored at the children of [n] sum to one. *)
Definition sums_to_one (n : Node.t) : Prop :=
  exists ps, child_probs n = Some ps /\ (Qsum ps == 1)%Q.

(** Each child's probability is its count over the sum of the counts of all
    the children of [n]. *)
Definition count_over_sum (n : Node.t) : Prop :=
  Forall (fun e =>
            Node.p (snd e)
            = Some (inject_Z (Node.count (snd e)) / inject_Z (PST.cnt_sum (Node.children n)))%Q)
         (Node.children n).

(** What one turn of the evaluation loop makes of an entry [e] of the dict:
    the child is evaluated by [rec] and the bag receives [count / s]. *)
Definition evaluated_entry (rec : Node.t -> result Node.t) (s : Z)
  (e e' : Node.t * Node.info) : Prop :=
  rec (fst e) = Ok (fst e') /\
  snd e' = Node.mkInfo (Node.count (snd e))
                       (Some (inject_Z (Node.count (snd e)) / inject_Z s)%Q).

(** Every tree of the model has been evaluated. *)
Definition model_evaluated (m : PST_model.t) : bool :=
  forallb (fun tree => evaluated (PST.root tree)) (PST_model.trees m).

(** *** The node distance as the specification words it

    For each child of this node, with probability [p1]: [(p1 - p2)^2] when
    the other node has a child of the same label, of probability [p2], and
    [p1^2] when there is no other node or no such child.  The distance is the
    sum of these terms over the children of this node. *)

Definition same_labelled (other : Node.t) (lbl : label) : option (Node.t * Node.info) :=
  find (fun e => String.eqb (Node.name (fst e)) lbl) (Node.children other).

Definition spec_term (other : option Node.t) (lbl : label) (p1 : Q) : option Q :=
  match other with
  | None => Some (p1 ^ 2)%Q
  | Some o =>
      match same_labelled o lbl with
      | None => Some (p1 ^ 2)%Q
      | Some (_, i2) =>
          match Node.p i2 with
          | Some p2 => Some ((p1 - p2) ^ 2)%Q
          | None => None
          end
      end
  end.

Fixpoint spec_terms (other : option Node.t) (l : list (Node.t * Node.info)) : option (list Q) :=
  match l with
  | [] => Some []
  | (child1, i1) :: rest =>
      match Node.p i1 with
      | None => None
      | Some p1 =>
          match spec_term other (Node.name child1) p1, spec_terms other rest with
          | Some x, Some xs => Some (x :: xs)
          | _, _ => None
          end
      end
  end.

Definition spec_distance (self : Node.t) (other : option Node.t) : option Q :=
  option_map Qsum (spec_terms other (Node.children self)).

(** [other] with one more child, appended to its dict. *)
Definition with_extra_child (other : Node.t) (extra : Node.t * Node.info) : Node.t :=
  Node.mk (Node.name other) (Node.level other) (Node.children other ++ [extra])
          (Node.has_children other).

(** *** The scenario of the specification *)

Definition scenario_windows : list (list label) :=
  [["A"; "B"; "C"]; ["A"; "B"; "D"]; ["A"; "B"; "C"]]%string.

Definition scenario_model : result PST_model.t :=
  PST_model.fit_subchains (PST_model.init 3) scenario_windows.

(** A chain whose windows that start with A are exactly the scenario's. *)
Definition scenario_chain : list label :=
  ["A"; "B"; "C"; "A"; "B"; "D"; "A"; "B"; "C"; "A"]%string.

(** The model, the tree of A and its node B once the scenario is trained. *)
Definition scenario_fitted : PST_model.t :=
  match scenario_model with
  | Ok m => m
  | Raise _ => PST_model.init 3
  end.

Definition scenario_tree_A : PST.t :=
  match PST_model.get_PST_by_name scenario_fitted "A"%string with
  | Some tree => tree
  | None => PST.mk (Node.init None "A"%string) "A"%string 3 0
  end.

Definition scenario_node_B : Node.t :=
  match descend (PST.root scenario_tree_A) ["B"%string] with
  | Some n => n
  | None => Node.init None "B"%string
  end.

(** The tree of A before its evaluation. *)
Definition scenario_counted_tree : PST.t :=
  match PST.init ["A"; "B"; "C"]%string with
  | Ok t0 => PST.add_subchain (PST.add_subchain t0 ["A"; "B"; "D"]%string)
                              ["A"; "B"; "C"]%string
  | Raise _ => PST.mk (Node.init None "A"%string) "A"%string 3 0
  end.

(** A model of depth 1 trained on the sequence A, B: its only window is [A]. *)
Definition unit_model : PST_model.t :=
  match PST_model.fit (PST_model.init 1) ["A"; "B"]%string with
  | Ok m => m
  | Raise _ => PST_model.init 1
  end.

(** ** Vocabulary of the further properties *)

(** [q] is a prefix of [l]. *)
Fixpoint is_prefix (q l : list label) : bool :=
  match q, l with
  | [], _ => true
  | _ :: _, [] => false
  | a :: q', b :: l' => String.eqb a b && is_prefix q' l'
  end.

(** How many of the windows [ws] begin with [q]. *)
Definition starting_with (q : list label) (ws : list (list label)) : Z :=
  len (filter (is_prefix q) ws).

(** The count on the last edge of the path [path] below [n], 0 when the
    path is not in the tree. *)
Fixpoint path_count (n : Node.t) (path : list label) : Z :=
  match path with
  | [] => 0
  | e :: rest =>
      match rest with
      | [] => edge_count n e
      | _ :: _ =>
          match Node.get_child_by_name n e with
          | Some child => path_count child rest
          | None => 0
          end
      end
  end.

(** What a tree has counted for the chains that begin with its label
    followed by [path]: the chains it was given when [path] is empty (the
    initial one and the [power] absorbed ones). *)
Definition tree_count (t : PST.t) (path : list label) : Z :=
  match path with
  | [] => PST.power t + 1
  | _ :: _ => path_count (PST.root t) path
  end.

(** What a model has counted for the windows that begin with [q]. *)
Definition model_count (m : PST_model.t) (q : list label) : Z :=
  match q with
  | [] => 0
  | first :: path =>
      match PST_model.get_PST_by_name m first with
      | Some t => tree_count t path
      | None => 0
      end
  end.

(** A node without its probabilities: every key ['p'] removed. *)
Fixpoint forget (n : Node.t) : Node.t :=
  match n with
  | Node.mk nm lv ch hc =>
      Node.mk nm lv
              (map (fun e => (forget (fst e), Node.mkInfo (Node.count (snd e)) None)) ch) hc
  end.

(** The single path spelled by [elems] below a node labelled [nm]: every
    node has one child, counted once, and the last one has none. *)
Fixpoint linear_path (nm : label) (lv : Z) (elems : list label) : Node.t :=
  match elems with
  | [] => Node.mk nm lv [] false
  | e :: rest => Node.mk nm lv [(linear_path e (lv + 1) rest, Node.mkInfo 1 None)] true
  end.

(** The children of [n] are one level below [n]. *)
Definition levels_ok (n : Node.t) : bool :=
  forallb (fun e => Node.level (fst e) =? Node.level n + 1) (Node.children n).

(** Every chain counted at [n] went on for [h] more elements: below a node
    that [c] chains reached, the counts of the children add up to [c], down
    to the nodes at distance [h], which have no children. *)
Fixpoint flow (h : nat) (c : Z) (n : Node.t) : Prop :=
  match h with
  | O => Node.children n = []
  | S h' =>
      PST.cnt_sum (Node.children n) = c /\
      Forall (fun e => flow h' (Node.count (snd e)) (fst e)) (Node.children n)
  end.

(** The probabilities stored at [n] lie in (0, 1]. *)
Definition probs_in_unit (n : Node.t) : Prop :=
  Forall (fun e => exists x, Node.p (snd e) = Some x /\ (0 < x)%Q /\ (x <= 1)%Q)
         (Node.children n).

(** The models that the class [PST_model] can produce. *)
Inductive fitted : PST_model.t -> Prop :=
| fitted_init depth : fitted (PST_model.init depth)
| fitted_fit m chain m' : fitted m -> PST_model.fit m chain = Ok m' -> fitted m'.

(** The model of depth 3 fitted on the sequence of the scenario. *)
Definition chain_fitted : PST_model.t :=
  match PST_model.fit (PST_model.init 3) scenario_chain with
  | Ok m => m
  | Raise _ => PST_model.init 3
  end.

(** What holds of a tree of a model of depth [d] while it is trained: it
    is a tree that the class [PST] produces, named after its root, of depth
    [d], and every chain it was given had [d] elements. *)
Definition tree_counted (d : Z) (t : PST.t) : Prop :=
  built t /\
  PST.name t = Node.name (PST.root t) /\
  PST.depth t = d /\
  0 <= PST.power t /\
  flow (Z.to_nat (d - 1)) (PST.power t + 1) (PST.root t).

(** The labels of the trees of a model, in the order of the list. *)
Definition tree_names (l : list PST.t) : list label := map PST.name l.

(** That model fitted once more, on a sequence that brings a new label. *)
Definition chain_refitted : PST_model.t :=
  match PST_model.fit chain_fitted ["E"; "A"; "B"; "C"; "E"]%string with
  | Ok m => m
  | Raise _ => chain_fitted
  end.

(** * Proofs *)

(** ** Induction on nodes *)

Lemma Node_induction (P : Node.t -> Prop)
  (step : forall nm lv ch hc,
      Forall (fun e => P (fst e)) ch -> P (Node.mk nm lv ch hc)) :
  forall n, P n.
Proof.
  fix IH 1.
  intros [nm lv ch hc]. apply step.
  induction ch as [|[c i] rest IHrest]; constructor.
  - apply IH.
  - exact IHrest.
Qed.

(** ** The error monad *)

Lemma bind_Ok {A B : Type} (m : result A) (f : A -> result B) (b : B) :
  bind m f = Ok b -> exists a, m = Ok a /\ f a = Ok b.
Proof.
  destruct m as [a|e]; simpl; intros H.
  - exists a. split; [reflexivity | exact H].
  - discriminate H.
Qed.

Lemma mapM_length {A B : Type} (f : A -> result B) (l : list A) (bs : list B) :
  mapM f l = Ok bs -> length bs = length l.
Proof.
  revert bs. induction l as [|a rest IH]; simpl; intros bs H.
  - injection H as <-. reflexivity.
  - apply bind_Ok in H. destruct H as (b & _ & H).
    apply bind_Ok in H. destruct H as (bs' & Hrest & H).
    injection H as <-. simpl. f_equal. apply IH. exact Hrest.
Qed.

Lemma mapM_pointwise {A B : Type} (f : A -> result B) (l : list A) (bs : list B) :
  mapM f l = Ok bs -> map Ok bs = map f l.
Proof.
  revert bs. induction l as [|a rest IH]; simpl; intros bs H.
  - injection H as <-. reflexivity.
  - apply bind_Ok in H. destruct H as (b & Hb & H).
    apply bind_Ok in H. destruct H as (bs' & Hrest & H).
    injection H as <-. simpl. rewrite Hb. f_equal. apply IH. exact Hrest.
Qed.

Lemma mapM_total {A B : Type} (f : A -> result B) (l : list A) :
  Forall (fun a => exists b, f a = Ok b) l -> exists bs, mapM f l = Ok bs.
Proof.
  induction 1 as [|a rest [b Hb] _ [bs Hbs]]; simpl.
  - exists []. reflexivity.
  - exists (b :: bs). rewrite Hb. simpl. rewrite Hbs. reflexivity.
Qed.

(** ** Ranges and slices *)

Lemma py_range_length (n : Z) : length (py_range n) = Z.to_nat n.
Proof. unfold py_range. rewrite length_map, length_seq. reflexivity. Qed.

Lemma py_range_nth (n : Z) (k : nat) :
  (k < Z.to_nat n)%nat -> nth_error (py_range n) k = Some (Z.of_nat k).
Proof.
  intros Hk. unfold py_range.
  rewrite nth_error_map, nth_error_seq.
  destruct (Nat.ltb_spec k (Z.to_nat n)) as [_|Hge]; [reflexivity | lia].
Qed.

Lemma py_range_In (n i : Z) : In i (py_range n) -> 0 <= i < n.
Proof.
  unfold py_range. rewrite in_map_iff. intros (k & <- & Hk).
  apply in_seq in Hk. lia.
Qed.

Lemma py_slice_inside {A : Type} (l : list A) (i d : Z) :
  0 <= i -> 0 <= d -> i + d <= len l ->
  py_slice l i (i + d) = firstn (Z.to_nat d) (skipn (Z.to_nat i) l) /\
  len (py_slice l i (i + d)) = d.
Proof.
  intros Hi Hd Hle. unfold len in *.
  assert (Hs : py_slice l i (i + d) = firstn (Z.to_nat d) (skipn (Z.to_nat i) l)).
  { unfold py_slice, slice_index.
    destruct (Z.ltb_spec i 0) as [Hneg|_]; [lia|].
    destruct (Z.ltb_spec (i + d) 0) as [Hneg|_]; [lia|].
    rewrite !Z.min_l by lia.
    replace (i + d - i) with d by lia. reflexivity. }
  split; [exact Hs|].
  rewrite Hs, length_firstn, length_skipn. lia.
Qed.

(** ** Lookups in the dict of children *)

Lemma scan_Some (l : list (Node.t * Node.info)) (nm : label) (c : Node.t) :
  Node.scan l nm = Some c ->
  Node.name c = nm /\ exists i, Node.getitem l nm = Ok i /\ In (c, i) l.
Proof.
  induction l as [|[c0 i0] rest IH]; simpl; [discriminate|].
  destruct (String.eqb_spec (Node.name c0) nm) as [Heq|Hne]; intros H.
  - injection H as <-. split; [exact Heq|]. exists i0. split; [reflexivity | left; reflexivity].
  - destruct (IH H) as (Hn & i & Hi & Hin).
    split; [exact Hn|]. exists i. split; [exact Hi | right; exact Hin].
Qed.

Lemma scan_None (l : list (Node.t * Node.info)) (nm : label) :
  Node.scan l nm = None <-> existsb (String.eqb nm) (labels l) = false.
Proof.
  induction l as [|[c0 i0] rest IH]; simpl; [tauto|].
  rewrite (String.eqb_sym nm).
  destruct (String.eqb (Node.name c0) nm); simpl; [split; discriminate | exact IH].
Qed.

Lemma subnodes_unfold (n : Node.t) :
  subnodes n = n :: flat_map (fun e => subnodes (fst e)) (Node.children n).
Proof. destruct n; reflexivity. Qed.

Lemma all_nodes_unfold (P : Node.t -> bool) (n : Node.t) :
  all_nodes P n = P n && forallb (fun e => all_nodes P (fst e)) (Node.children n).
Proof.
  unfold all_nodes. rewrite subnodes_unfold. simpl. f_equal.
  induction (Node.children n) as [|e rest IH]; simpl; [reflexivity|].
  rewrite forallb_app, IH. reflexivity.
Qed.

Lemma all_nodes_here (P : Node.t -> bool) (n : Node.t) :
  all_nodes P n = true -> P n = true.
Proof. rewrite all_nodes_unfold. intros H. apply andb_prop in H. tauto. Qed.

Lemma all_nodes_child (P : Node.t -> bool) (n c : Node.t) (i : Node.info) :
  all_nodes P n = true -> In (c, i) (Node.children n) -> all_nodes P c = true.
Proof.
  rewrite all_nodes_unfold. intros H Hin. apply andb_prop in H. destruct H as [_ H].
  rewrite forallb_forall in H. exact (H _ Hin).
Qed.

Lemma all_nodes_In (P : Node.t -> bool) (n x : Node.t) :
  all_nodes P n = true -> In x (subnodes n) -> P x = true.
Proof. unfold all_nodes. rewrite forallb_forall. auto. Qed.

Lemma evaluated_edge (n c : Node.t) (i : Node.info) :
  children_evaluated n = true -> In (c, i) (Node.children n) ->
  exists x, Node.p i = Some x.
Proof.
  unfold children_evaluated. rewrite forallb_forall. intros H Hin.
  specialize (H _ Hin). simpl in H.
  destruct (Node.p i) as [x|]; [exists x; reflexivity | discriminate].
Qed.

(** ** The walk of a query *)

Lemma walk_prefix (pre rest : list label) :
  forall (node n : Node.t) (prob : Q),
    evaluated node = true -> descend node pre = Some n ->
    exists prob', PST_model.walk node prob (pre ++ rest) = PST_model.walk n prob' rest.
Proof.
  induction pre as [|e pre IH]; simpl; intros node n prob Hev Hd.
  - injection Hd as <-. exists prob. reflexivity.
  - destruct (Node.get_child_by_name node e) as [child|] eqn:Hc; [|discriminate].
    destruct (scan_Some _ _ _ Hc) as (Hn & i & Hi & Hin).
    rewrite Hn, Hi. simpl.
    destruct (evaluated_edge node child i (all_nodes_here _ _ Hev) Hin) as [x Hx].
    unfold Node.get_p. rewrite Hx. simpl.
    apply IH; [|exact Hd].
    exact (all_nodes_child _ _ _ _ Hev Hin).
Qed.

Lemma walk_total (elems : list label) :
  forall (node : Node.t) (prob : Q),
    evaluated node = true -> exists q, PST_model.walk node prob elems = Ok (VNum q).
Proof.
  induction elems as [|e rest IH]; simpl; intros node prob Hev.
  - exists prob. reflexivity.
  - destruct (Node.get_child_by_name node e) as [child|] eqn:Hc.
    + destruct (scan_Some _ _ _ Hc) as (Hn & i & Hi & Hin).
      rewrite Hn, Hi. simpl.
      destruct (evaluated_edge node child i (all_nodes_here _ _ Hev) Hin) as [x Hx].
      unfold Node.get_p. rewrite Hx. simpl.
      apply IH. exact (all_nodes_child _ _ _ _ Hev Hin).
    + exists 0%Q. reflexivity.
Qed.

Lemma find_tree_In (l : list PST.t) (nm : label) (pst : PST.t) :
  PST_model.find_tree l nm = Some pst -> In pst l /\ PST.name pst = nm.
Proof.
  induction l as [|tree rest IH]; simpl; [discriminate|].
  destruct (String.eqb_spec (PST.name tree) nm) as [Heq|Hne]; intros H.
  - injection H as <-. split; [left; reflexivity | exact Heq].
  - destruct (IH H) as [Hin Hn]. split; [right; exact Hin | exact Hn].
Qed.

(** ** Merging a child *)

Lemma labels_app (l l' : list (Node.t * Node.info)) :
  labels (l ++ l') = labels l ++ labels l'.
Proof. unfold labels. apply map_app. Qed.

Lemma labels_incr_count (l : list (Node.t * Node.info)) (nm : label) :
  labels (Node.incr_count l nm) = labels l.
Proof.
  induction l as [|[c i] rest IH]; simpl; [reflexivity|].
  destruct (String.eqb (Node.name c) nm); simpl; [reflexivity | f_equal; exact IH].
Qed.

Lemma length_incr_count (l : list (Node.t * Node.info)) (nm : label) :
  length (Node.incr_count l nm) = length l.
Proof.
  induction l as [|[c i] rest IH]; simpl; [reflexivity|].
  destruct (String.eqb (Node.name c) nm); simpl; [reflexivity | f_equal; exact IH].
Qed.

Lemma positive_incr_count (l : list (Node.t * Node.info)) (nm : label) :
  forallb (fun e => 1 <=? Node.count (snd e)) l = true ->
  forallb (fun e => 1 <=? Node.count (snd e)) (Node.incr_count l nm) = true.
Proof.
  induction l as [|[c i] rest IH]; simpl; [reflexivity|].
  intros H. apply andb_prop in H. destruct H as [Hi Hrest].
  destruct (String.eqb (Node.name c) nm); simpl.
  - rewrite Hrest, andb_true_r. apply Z.leb_le. apply Z.leb_le in Hi. lia.
  - rewrite Hi, (IH Hrest). reflexivity.
Qed.

Lemma subtrees_incr_count (P : Node.t -> Prop) (l : list (Node.t * Node.info)) (nm : label) :
  Forall (fun e => P (fst e)) l -> Forall (fun e => P (fst e)) (Node.incr_count l nm).
Proof.
  induction 1 as [|[c i] rest Hc Hrest IH]; simpl; [constructor|].
  destruct (String.eqb (Node.name c) nm); constructor; assumption.
Qed.

Lemma labels_replace_key (l : list (Node.t * Node.info)) (nm : label) (c' : Node.t) :
  Node.name c' = nm -> labels (Node.replace_key l nm c') = labels l.
Proof.
  intros Hn. induction l as [|[c i] rest IH]; simpl; [reflexivity|].
  destruct (String.eqb_spec (Node.name c) nm) as [Heq|Hne]; simpl.
  - rewrite Hn, Heq. reflexivity.
  - f_equal. exact IH.
Qed.

Lemma infos_replace_key (l : list (Node.t * Node.info)) (nm : label) (c' : Node.t) :
  map snd (Node.replace_key l nm c') = map snd l.
Proof.
  induction l as [|[c i] rest IH]; simpl; [reflexivity|].
  destruct (String.eqb (Node.name c) nm); simpl; [reflexivity | f_equal; exact IH].
Qed.

Lemma subtrees_replace_key (P : Node.t -> Prop) (l : list (Node.t * Node.info))
  (nm : label) (c' : Node.t) :
  P c' -> Forall (fun e => P (fst e)) l ->
  Forall (fun e => P (fst e)) (Node.replace_key l nm c').
Proof.
  intros Hc'. induction 1 as [|[c i] rest Hc Hrest IH]; simpl; [constructor|].
  destruct (String.eqb (Node.name c) nm); constructor; assumption.
Qed.

Lemma forallb_infos (g : Node.info -> bool) (l l' : list (Node.t * Node.info)) :
  map snd l = map snd l' ->
  forallb (fun e => g (snd e)) l = forallb (fun e => g (snd e)) l'.
Proof.
  revert l'. induction l as [|e rest IH]; intros [|e' rest']; simpl; try discriminate.
  - reflexivity.
  - intros H. injection H as Hs Hrest. rewrite Hs, (IH _ Hrest). reflexivity.
Qed.

Lemma distinctb_app_fresh (l : list label) (x : label) :
  distinctb l = true -> existsb (String.eqb x) l = false -> distinctb (l ++ [x]) = true.
Proof.
  induction l as [|y rest IH]; simpl; [reflexivity|].
  intros Hd Hx. apply andb_prop in Hd. destruct Hd as [Hy Hrest].
  apply orb_false_elim in Hx. destruct Hx as [Hxy Hxrest].
  rewrite existsb_app. apply negb_true_iff in Hy. rewrite Hy.
  cbn [existsb]. rewrite String.eqb_sym, Hxy. simpl. apply IH; assumption.
Qed.

Lemma all_nodes_mk (P : Node.t -> bool) (n : Node.t) :
  all_nodes P n = true <->
  P n = true /\ Forall (fun e => all_nodes P (fst e) = true) (Node.children n).
Proof.
  rewrite all_nodes_unfold, andb_true_iff, forallb_forall, Forall_forall. tauto.
Qed.

Lemma add_child_found (self node child : Node.t) :
  Node.get_child_by_name self (Node.name node) = Some child ->
  Node.add_child self node
  = (Node.mk (Node.name self) (Node.level self)
             (Node.incr_count (Node.children self) (Node.name node)) true, child).
Proof.
  intros H. unfold Node.add_child. rewrite H.
  destruct (scan_Some _ _ _ H) as [-> _]. reflexivity.
Qed.

Lemma add_child_fresh (self node : Node.t) :
  Node.get_child_by_name self (Node.name node) = None ->
  Node.add_child self node
  = (Node.mk (Node.name self) (Node.level self)
             (Node.children self ++ [(node, Node.mkInfo 1 None)]) true, node).
Proof. intros H. unfold Node.add_child. rewrite H. reflexivity. Qed.

Lemma scan_nonempty (l : list (Node.t * Node.info)) (nm : label) (c : Node.t) :
  Node.scan l nm = Some c -> (len l =? 0) = false.
Proof. destruct l; [discriminate | reflexivity]. Qed.

Lemma node_ok_add_child (self node : Node.t) :
  node_ok self = true -> node_ok (fst (Node.add_child self node)) = true.
Proof.
  unfold node_ok. intros H.
  apply andb_prop in H. destruct H as [H Hflag].
  apply andb_prop in H. destruct H as [Hd Hpos].
  destruct (Node.get_child_by_name self (Node.name node)) as [child|] eqn:Hc.
  - rewrite (add_child_found _ _ _ Hc). simpl.
    unfold distinct_labels, counts_positive, flag_ok in *. simpl.
    rewrite labels_incr_count, Hd, (positive_incr_count _ _ Hpos). simpl.
    unfold len. rewrite length_incr_count.
    fold (len (Node.children self)). rewrite (scan_nonempty _ _ _ Hc). reflexivity.
  - rewrite (add_child_fresh _ _ Hc). simpl.
    unfold distinct_labels, counts_positive, flag_ok in *. simpl.
    rewrite labels_app. simpl.
    rewrite distinctb_app_fresh; [|exact Hd|apply scan_None; exact Hc].
    rewrite forallb_app, Hpos. simpl.
    unfold len. rewrite length_app. simpl.
    destruct (Z.eqb_spec (Z.of_nat (length (Node.children self) + 1)) 0); [lia | reflexivity].
Qed.

Lemma length_replace_key (l : list (Node.t * Node.info)) (nm : label) (c' : Node.t) :
  length (Node.replace_key l nm c') = length l.
Proof.
  rewrite <- (length_map snd), infos_replace_key. apply length_map.
Qed.

Lemma add_child_name (self node : Node.t) :
  Node.name (fst (Node.add_child self node)) = Node.name self.
Proof.
  unfold Node.add_child.
  destruct (Node.get_child_by_name self (Node.name node)); reflexivity.
Qed.

Lemma add_child_returns (self node : Node.t) :
  Node.name (snd (Node.add_child self node)) = Node.name node.
Proof.
  unfold Node.add_child.
  destruct (Node.get_child_by_name self (Node.name node)) as [child|] eqn:Hc; simpl.
  - apply scan_Some in Hc. tauto.
  - reflexivity.
Qed.

Lemma all_ok_add_child (self node : Node.t) :
  all_nodes node_ok self = true -> all_nodes node_ok node = true ->
  all_nodes node_ok (fst (Node.add_child self node)) = true /\
  all_nodes node_ok (snd (Node.add_child self node)) = true.
Proof.
  intros Hself Hnode.
  pose proof (node_ok_add_child self node (all_nodes_here _ _ Hself)) as Hok.
  apply all_nodes_mk in Hself. destruct Hself as [_ Hch].
  destruct (Node.get_child_by_name self (Node.name node)) as [child|] eqn:Hc.
  - rewrite (add_child_found _ _ _ Hc) in *. simpl in *. split.
    + apply all_nodes_mk. split; [exact Hok|]. simpl.
      apply (subtrees_incr_count (fun c => all_nodes node_ok c = true)). exact Hch.
    + destruct (scan_Some _ _ _ Hc) as (_ & i & _ & Hin).
      rewrite Forall_forall in Hch. exact (Hch _ Hin).
  - rewrite (add_child_fresh _ _ Hc) in *. simpl in *. split.
    + apply all_nodes_mk. split; [exact Hok|]. simpl.
      apply Forall_app. split; [exact Hch|]. constructor; [exact Hnode | constructor].
    + exact Hnode.
Qed.

Lemma all_ok_write_back (self c' : Node.t) (nm : label) :
  all_nodes node_ok self = true -> all_nodes node_ok c' = true -> Node.name c' = nm ->
  all_nodes node_ok (Node.write_back self nm c') = true.
Proof.
  intros Hself Hc' Hn.
  apply all_nodes_mk in Hself. destruct Hself as [Hok Hch].
  apply all_nodes_mk. split.
  - unfold node_ok, distinct_labels, counts_positive, flag_ok in *. simpl.
    rewrite (labels_replace_key _ _ _ Hn).
    rewrite (forallb_infos (fun i => 1 <=? Node.count i) _ (Node.children self))
      by apply infos_replace_key.
    unfold len. rewrite length_replace_key. exact Hok.
  - simpl. apply (subtrees_replace_key (fun c => all_nodes node_ok c = true)); assumption.
Qed.

Lemma name_write_back (self c' : Node.t) (nm : label) :
  Node.name (Node.write_back self nm c') = Node.name self.
Proof. reflexivity. Qed.

Lemma name_absorb (elems : list label) (node : Node.t) :
  Node.name (PST.absorb node elems) = Node.name node.
Proof.
  destruct elems as [|e rest]; simpl; [reflexivity|].
  pose proof (add_child_name node (Node.init (Some node) e)) as Hn.
  destruct (Node.add_child node (Node.init (Some node) e)) as [node' child].
  exact Hn.
Qed.

Lemma all_ok_absorb (elems : list label) :
  forall node, all_nodes node_ok node = true ->
               all_nodes node_ok (PST.absorb node elems) = true.
Proof.
  induction elems as [|e rest IH]; simpl; intros node Hnode; [exact Hnode|].
  destruct (all_ok_add_child node (Node.init (Some node) e) Hnode eq_refl) as [H1 H2].
  destruct (Node.add_child node (Node.init (Some node) e)) as [node' child].
  simpl in H1, H2.
  apply all_ok_write_back; [exact H1 | apply IH; exact H2 | apply name_absorb].
Qed.

Lemma init_path_absorb (elems : list label) :
  forall node, Node.children node = [] -> PST.init_path node elems = PST.absorb node elems.
Proof.
  induction elems as [|e rest IH]; simpl; intros node Hempty; [reflexivity|].
  assert (Hc : Node.get_child_by_name node (Node.name (Node.init (Some node) e)) = None).
  { unfold Node.get_child_by_name. rewrite Hempty. reflexivity. }
  rewrite (add_child_fresh _ _ Hc). simpl in Hc. rewrite Hc. simpl.
  rewrite IH by reflexivity. reflexivity.
Qed.

Lemma init_root (chain : list label) (t : PST.t) :
  PST.init chain = Ok t ->
  exists first rest,
    chain = first :: rest /\ PST.root t = PST.absorb (Node.init None first) rest /\
    PST.name t = first /\ PST.depth t = len chain /\ PST.power t = 0.
Proof.
  destruct chain as [|first rest]; simpl; [discriminate|].
  intros H. injection H as <-. exists first, rest. simpl.
  rewrite init_path_absorb by reflexivity. repeat split; reflexivity.
Qed.

(** ** The evaluation pass *)

Lemma cnt_sum_shift (l : list (Node.t * Node.info)) (a : Z) :
  fold_left (fun acc e => acc + Node.count (snd e)) l a
  = a + fold_left (fun acc e => acc + Node.count (snd e)) l 0.
Proof.
  revert a. induction l as [|e rest IH]; simpl; intros a; [lia|].
  rewrite (IH (a + Node.count (snd e))), (IH (Node.count (snd e))). lia.
Qed.

Lemma cnt_sum_cons (e : Node.t * Node.info) (l : list (Node.t * Node.info)) :
  PST.cnt_sum (e :: l) = Node.count (snd e) + PST.cnt_sum l.
Proof. unfold PST.cnt_sum. simpl. rewrite cnt_sum_shift. lia. Qed.

Lemma cnt_sum_infos (l l' : list (Node.t * Node.info)) :
  map (fun e => Node.count (snd e)) l = map (fun e => Node.count (snd e)) l' ->
  PST.cnt_sum l = PST.cnt_sum l'.
Proof.
  revert l'. induction l as [|e rest IH]; intros [|e' rest']; simpl; try discriminate.
  - reflexivity.
  - intros H. injection H as Hc Hrest. rewrite !cnt_sum_cons, Hc, (IH _ Hrest). reflexivity.
Qed.

Lemma cnt_sum_positive (l : list (Node.t * Node.info)) :
  forallb (fun e => 1 <=? Node.count (snd e)) l = true -> l <> [] -> 0 < PST.cnt_sum l.
Proof.
  intros Hpos Hne.
  assert (Hlen : Z.of_nat (length l) <= PST.cnt_sum l).
  { clear Hne. induction l as [|e rest IH]; [unfold PST.cnt_sum; simpl; lia|].
    simpl in Hpos. apply andb_prop in Hpos. destruct Hpos as [He Hrest].
    apply Z.leb_le in He. rewrite cnt_sum_cons. specialize (IH Hrest).
    simpl length. lia. }
  destruct l; [congruence | simpl length in Hlen; lia].
Qed.

Lemma Forall2_transfer {A B : Type} (R : A -> B -> Prop) (P : A -> Prop) (G : B -> Prop)
  (l : list A) (l' : list B) :
  Forall2 R l l' -> Forall P l -> (forall a b, P a -> R a b -> G b) -> Forall G l'.
Proof.
  intros HR HP Hstep. revert HP.
  induction HR as [|a b rest rest' Hab _ IH]; intros HP; constructor.
  - exact (Hstep a b (Forall_inv HP) Hab).
  - exact (IH (Forall_inv_tail HP)).
Qed.

Lemma evaluate_children_spec (rec : Node.t -> result Node.t) (s : Z)
  (l l' : list (Node.t * Node.info)) :
  PST.evaluate_children rec s l = Ok l' ->
  Forall2 (evaluated_entry rec s) l l' /\ (l <> [] -> s <> 0).
Proof.
  revert l'. induction l as [|[c i] rest IH]; simpl; intros l' H.
  - injection H as <-. split; [constructor | congruence].
  - apply bind_Ok in H. destruct H as (x & Hx & H).
    apply bind_Ok in H. destruct H as (c' & Hc' & H).
    apply bind_Ok in H. destruct H as (rest' & Hrest & H).
    injection H as <-.
    unfold PST.true_div in Hx.
    destruct (Z.eqb_spec s 0) as [|Hs]; [discriminate|]. injection Hx as <-.
    split; [|intros _; exact Hs].
    constructor; [|apply IH; exact Hrest].
    split; [exact Hc' | reflexivity].
Qed.

Lemma evaluate_children_total (rec : Node.t -> result Node.t) (s : Z)
  (l : list (Node.t * Node.info)) :
  s <> 0 -> Forall (fun e => exists c', rec (fst e) = Ok c') l ->
  exists l', PST.evaluate_children rec s l = Ok l'.
Proof.
  intros Hs. induction 1 as [|[c i] rest [c' Hc'] _ [rest' Hrest]]; simpl.
  - exists []. reflexivity.
  - unfold PST.true_div. destruct (Z.eqb_spec s 0) as [|_]; [contradiction|].
    simpl in *. rewrite Hc'. simpl. rewrite Hrest. simpl. eexists. reflexivity.
Qed.

Lemma evaluate_unfold (n : Node.t) :
  PST.evaluate_node_probability n
  = if len (Node.children n) =? 0 then Ok n
    else ch' <- PST.evaluate_children PST.evaluate_node_probability
                  (PST.cnt_sum (Node.children n)) (Node.children n) ;;
         Ok (Node.mk (Node.name n) (Node.level n) ch' (Node.has_children n)).
Proof. destruct n; reflexivity. Qed.

Lemma len_zero {A : Type} (l : list A) : (len l =? 0) = true <-> l = [].
Proof.
  unfold len. destruct l; simpl; split; intros H; try reflexivity; try discriminate.
Qed.

Lemma evaluate_cases (n n' : Node.t) :
  PST.evaluate_node_probability n = Ok n' ->
  (Node.children n = [] /\ n' = n) \/
  (Node.children n <> [] /\ PST.cnt_sum (Node.children n) <> 0 /\
   exists ch',
     n' = Node.mk (Node.name n) (Node.level n) ch' (Node.has_children n) /\
     Forall2 (evaluated_entry PST.evaluate_node_probability (PST.cnt_sum (Node.children n)))
             (Node.children n) ch').
Proof.
  rewrite evaluate_unfold.
  destruct (len (Node.children n) =? 0) eqn:Hlen; intros H.
  - left. apply len_zero in Hlen. injection H as <-. split; [exact Hlen | reflexivity].
  - right. assert (Hne : Node.children n <> []).
    { intros He. apply len_zero in He. congruence. }
    apply bind_Ok in H. destruct H as (ch' & Hch & H). injection H as <-.
    apply evaluate_children_spec in Hch. destruct Hch as [Hall Hs].
    split; [exact Hne|]. split; [exact (Hs Hne)|].
    exists ch'. split; [reflexivity | exact Hall].
Qed.

Lemma evaluate_total (n : Node.t) :
  all_nodes counts_positive n = true -> exists n', PST.evaluate_node_probability n = Ok n'.
Proof.
  induction n as [nm lv ch hc IH] using Node_induction. intros Hpos.
  rewrite evaluate_unfold. simpl.
  destruct (len ch =? 0) eqn:Hlen; [eexists; reflexivity|].
  apply all_nodes_mk in Hpos. simpl in Hpos. destruct Hpos as [Hhere Hsub].
  assert (Hne : ch <> []) by (intros He; apply len_zero in He; congruence).
  pose proof (cnt_sum_positive ch Hhere Hne) as Hs.
  destruct (evaluate_children_total PST.evaluate_node_probability (PST.cnt_sum ch) ch)
    as [ch' Hch']; [lia | | rewrite Hch'; simpl; eexists; reflexivity].
  rewrite Forall_forall in *. intros e He. exact (IH e He (Hsub e He)).
Qed.

Lemma evaluate_name (n n' : Node.t) :
  PST.evaluate_node_probability n = Ok n' -> Node.name n' = Node.name n.
Proof.
  intros H. apply evaluate_cases in H.
  destruct H as [[_ ->] | (_ & _ & ch' & -> & _)]; reflexivity.
Qed.

Lemma evaluate_evaluated (n : Node.t) :
  forall n', PST.evaluate_node_probability n = Ok n' -> evaluated n' = true.
Proof.
  induction n as [nm lv ch hc IH] using Node_induction. intros n' H.
  apply evaluate_cases in H. simpl in H.
  destruct H as [[-> ->] | (_ & _ & ch' & -> & Hall)]; [reflexivity|].
  apply all_nodes_mk. simpl. unfold children_evaluated. simpl.
  rewrite forallb_forall, Forall_forall.
  assert (Hboth : Forall (fun e' => (exists x, Node.p (snd e') = Some x) /\
                                   evaluated (fst e') = true) ch').
  { apply (Forall2_transfer _ _ _ _ _ Hall IH).
    intros e e' IHe [Hrec Hinfo]. rewrite Hinfo. simpl.
    split; [eexists; reflexivity | exact (IHe _ Hrec)]. }
  rewrite Forall_forall in Hboth.
  split; intros e' Hin; destruct (Hboth e' Hin) as [[x Hx] Hev].
  - rewrite Hx. reflexivity.
  - exact Hev.
Qed.

Lemma Forall2_map_eq {A B C : Type} (R : A -> B -> Prop) (f : A -> C) (g : B -> C)
  (l : list A) (l' : list B) :
  Forall2 R l l' -> (forall a b, R a b -> f a = g b) -> map f l = map g l'.
Proof.
  intros HR Hstep. induction HR as [|a b rest rest' Hab _ IH]; simpl.
  - reflexivity.
  - rewrite (Hstep a b Hab), IH. reflexivity.
Qed.

Lemma all_nodes_weaken (P G : Node.t -> bool) (n : Node.t) :
  (forall x, P x = true -> G x = true) -> all_nodes P n = true -> all_nodes G n = true.
Proof.
  intros Himp. unfold all_nodes. rewrite !forallb_forall. auto.
Qed.

Lemma node_ok_distinct (n : Node.t) : node_ok n = true -> distinct_labels n = true.
Proof.
  unfold node_ok. intros H. apply andb_prop in H. destruct H as [H _].
  apply andb_prop in H. tauto.
Qed.

Lemma node_ok_positive (n : Node.t) : node_ok n = true -> counts_positive n = true.
Proof.
  unfold node_ok. intros H. apply andb_prop in H. destruct H as [H _].
  apply andb_prop in H. tauto.
Qed.

Lemma node_ok_flag (n : Node.t) : node_ok n = true -> flag_ok n = true.
Proof. unfold node_ok. intros H. apply andb_prop in H. tauto. Qed.

Lemma Forall_subnodes (P : Node.t -> Prop) (n : Node.t) :
  Forall P (subnodes n) <->
  P n /\ Forall (fun e => Forall P (subnodes (fst e))) (Node.children n).
Proof.
  rewrite subnodes_unfold, Forall_cons_iff, Forall_flat_map. tauto.
Qed.

Lemma evaluate_counts (n : Node.t) (ch' : list (Node.t * Node.info)) (s : Z) :
  Forall2 (evaluated_entry PST.evaluate_node_probability s) (Node.children n) ch' ->
  labels ch' = labels (Node.children n) /\
  map (fun e => Node.count (snd e)) ch' = map (fun e => Node.count (snd e)) (Node.children n) /\
  length ch' = length (Node.children n).
Proof.
  intros Hall. split; [|split].
  - symmetry. unfold labels. apply (Forall2_map_eq _ _ _ _ _ Hall).
    intros e e' [Hrec _]. symmetry. exact (evaluate_name _ _ Hrec).
  - symmetry. apply (Forall2_map_eq _ _ _ _ _ Hall).
    intros e e' [_ Hinfo]. rewrite Hinfo. reflexivity.
  - symmetry. exact (Forall2_length Hall).
Qed.

Lemma forallb_counts (g : Z -> bool) (l l' : list (Node.t * Node.info)) :
  map (fun e => Node.count (snd e)) l = map (fun e => Node.count (snd e)) l' ->
  forallb (fun e => g (Node.count (snd e))) l = forallb (fun e => g (Node.count (snd e))) l'.
Proof.
  revert l'. induction l as [|e rest IH]; intros [|e' rest']; simpl; try discriminate.
  - reflexivity.
  - intros H. injection H as Hc Hrest. rewrite Hc, (IH _ Hrest). reflexivity.
Qed.

Lemma evaluate_ok (n : Node.t) :
  forall n', PST.evaluate_node_probability n = Ok n' ->
             all_nodes node_ok n = true -> all_nodes node_ok n' = true.
Proof.
  induction n as [nm lv ch hc IH] using Node_induction. intros n' H Hok.
  apply evaluate_cases in H. simpl in H.
  destruct H as [[_ ->] | (_ & _ & ch' & -> & Hall)]; [exact Hok|].
  destruct (evaluate_counts (Node.mk nm lv ch hc) ch' _ Hall) as (Hlab & Hcnt & Hlen).
  simpl in Hlab, Hcnt, Hlen.
  apply all_nodes_mk in Hok. simpl in Hok. destruct Hok as [Hhere Hsub].
  apply all_nodes_mk. simpl. split.
  - unfold node_ok, distinct_labels, counts_positive, flag_ok, len in *. simpl in *.
    rewrite Hlab, Hlen, (forallb_counts (fun c => 1 <=? c) _ _ Hcnt). exact Hhere.
  - assert (Hboth : Forall (fun e => (forall n', PST.evaluate_node_probability (fst e) = Ok n' ->
                                        all_nodes node_ok (fst e) = true ->
                                        all_nodes node_ok n' = true) /\
                                     all_nodes node_ok (fst e) = true) ch).
    { rewrite Forall_forall in *. intros e He. split; [exact (IH e He) | exact (Hsub e He)]. }
    apply (Forall2_transfer _ _ _ _ _ Hall Hboth).
    intros e e' [IHe Hoke] [Hrec _]. exact (IHe _ Hrec Hoke).
Qed.

Lemma evaluate_count_over_sum (n : Node.t) :
  forall n', PST.evaluate_node_probability n = Ok n' ->
             Forall (fun x => Node.children x <> [] ->
                              count_over_sum x /\ PST.cnt_sum (Node.children x) <> 0)
                    (subnodes n').
Proof.
  induction n as [nm lv ch hc IH] using Node_induction. intros n' H.
  apply evaluate_cases in H. simpl in H.
  destruct H as [[-> ->] | (_ & Hs & ch' & -> & Hall)].
  - simpl. constructor; [simpl; congruence | constructor].
  - destruct (evaluate_counts (Node.mk nm lv ch hc) ch' _ Hall) as (_ & Hcnt & _).
    simpl in Hcnt. pose proof (cnt_sum_infos _ _ Hcnt) as Hsum.
    apply Forall_subnodes. simpl. split.
    + intros _. rewrite Hsum. split; [|exact Hs].
      unfold count_over_sum. simpl. rewrite Hsum.
      apply (Forall2_transfer _ _ _ _ _ Hall (proj2 (Forall_forall (fun _ => True) ch)
                                               (fun _ _ => I))).
      intros e e' _ [_ Hinfo]. rewrite Hinfo. reflexivity.
    + apply (Forall2_transfer _ _ _ _ _ Hall IH).
      intros e e' IHe [Hrec _]. exact (IHe _ Hrec).
Qed.

Lemma probs_of_ratio (l : list (Node.t * Node.info)) (s : Z) :
  Forall (fun e => Node.p (snd e)
                   = Some (inject_Z (Node.count (snd e)) / inject_Z s)%Q) l ->
  exists ps, probs l = Some ps /\ (Qsum ps == inject_Z (PST.cnt_sum l) / inject_Z s)%Q.
Proof.
  induction 1 as [|[c i] rest Hp _ (ps & Hps & Hsum)]; simpl in *.
  - exists []. split; [reflexivity|]. unfold PST.cnt_sum. simpl. unfold Qdiv. ring.
  - rewrite Hp, Hps. eexists. split; [reflexivity|].
    simpl. rewrite Hsum, cnt_sum_cons, inject_Z_plus. simpl. unfold Qdiv. ring.
Qed.

Lemma count_over_sum_sums (n : Node.t) :
  count_over_sum n -> PST.cnt_sum (Node.children n) <> 0 -> sums_to_one n.
Proof.
  intros Hratio Hs. destruct (probs_of_ratio _ _ Hratio) as (ps & Hps & Hsum).
  exists ps. split; [exact Hps|]. rewrite Hsum.
  apply Qmult_inv_r. unfold Qeq. simpl. lia.
Qed.

(** ** The invariant of built trees *)

Lemma built_ok (t : PST.t) : built t -> all_nodes node_ok (PST.root t) = true.
Proof.
  induction 1 as [chain t Hinit | t subchain _ IH | t t' _ IH Heval].
  - destruct (init_root _ _ Hinit) as (first & rest & _ & -> & _).
    apply all_ok_absorb. reflexivity.
  - simpl. apply all_ok_absorb. exact IH.
  - unfold PST.evaluate_probability in Heval.
    apply bind_Ok in Heval. destruct Heval as (root' & Hroot & Heval).
    injection Heval as <-. simpl. exact (evaluate_ok _ _ Hroot IH).
Qed.

(** ** Distances *)

Lemma distinct_lookup (l : list (Node.t * Node.info)) (c : Node.t) (i : Node.info) :
  distinctb (labels l) = true -> In (c, i) l ->
  Node.scan l (Node.name c) = Some c /\
  Node.getitem l (Node.name c) = Ok i /\
  existsb (String.eqb (Node.name c)) (labels l) = true.
Proof.
  induction l as [|[c0 i0] rest IH]; simpl; intros Hd Hin; [contradiction|].
  apply andb_prop in Hd. destruct Hd as [Hfresh Hrest].
  apply negb_true_iff in Hfresh.
  destruct Hin as [Heq|Hin].
  - injection Heq as -> ->. rewrite String.eqb_refl. simpl. repeat split; reflexivity.
  - destruct (IH Hrest Hin) as (Hscan & Hget & Hex).
    destruct (String.eqb_spec (Node.name c0) (Node.name c)) as [Hsame|Hdiff].
    + rewrite Hsame, Hex in Hfresh. discriminate.
    + rewrite Hex, orb_true_r. repeat split; assumption.
Qed.

Lemma distance_loop_self (n : Node.t) (l : list (Node.t * Node.info)) :
  distinct_labels n = true -> children_evaluated n = true -> incl l (Node.children n) ->
  forall acc, exists d, Node.distance_loop (Some n) l acc = Ok d /\ (d == acc)%Q.
Proof.
  intros Hd Hev. induction l as [|[c1 i1] rest IH]; intros Hincl acc.
  - exists acc. split; [reflexivity | apply Qeq_refl].
  - assert (Hin : In (c1, i1) (Node.children n)) by (apply Hincl; left; reflexivity).
    destruct (distinct_lookup _ _ _ Hd Hin) as (Hscan & Hget & Hex).
    destruct (evaluated_edge _ _ _ Hev Hin) as [x Hx].
    cbn [Node.distance_loop]. fold (labels (Node.children n)). rewrite Hex.
    unfold Node.get_child_by_name. rewrite Hscan, Hget. simpl.
    unfold Node.get_p. rewrite Hx. simpl.
    destruct (IH (fun e He => Hincl e (or_intror He)) (acc + (x - x) ^ 2)%Q) as (d & Hloop & Hacc).
    exists d. split; [exact Hloop|]. rewrite Hacc. ring.
Qed.

Lemma tree_distance_unfold (n : Node.t) (node2 : option Node.t) (distance : Q) :
  PST.get_node_distance n node2 distance
  = if negb (Node.has_children n) then Ok distance
    else d <- Node.get_node_distance n node2 ;;
         PST.distance_children PST.get_node_distance node2 (Node.children n) (distance + d)%Q.
Proof. destruct n; reflexivity. Qed.

Lemma distance_children_self (n : Node.t) (l : list (Node.t * Node.info)) :
  distinct_labels n = true -> incl l (Node.children n) ->
  Forall (fun e => forall acc, exists d,
                PST.get_node_distance (fst e) (Some (fst e)) acc = Ok d /\ (d == acc)%Q) l ->
  forall acc, exists d,
      PST.distance_children PST.get_node_distance (Some n) l acc = Ok d /\ (d == acc)%Q.
Proof.
  intros Hd. induction l as [|[c1 i1] rest IH]; intros Hincl Hall acc.
  - exists acc. split; [reflexivity | apply Qeq_refl].
  - assert (Hin : In (c1, i1) (Node.children n)) by (apply Hincl; left; reflexivity).
    destruct (distinct_lookup _ _ _ Hd Hin) as (Hscan & _ & Hex).
    cbn [PST.distance_children]. fold (labels (Node.children n)). rewrite Hex.
    unfold Node.get_child_by_name. rewrite Hscan.
    destruct (Forall_inv Hall acc) as (d1 & H1 & Hacc1). simpl in H1. rewrite H1. simpl.
    destruct (IH (fun e He => Hincl e (or_intror He)) (Forall_inv_tail Hall) d1)
      as (d & Hloop & Hacc).
    exists d. split; [exact Hloop|]. rewrite Hacc. exact Hacc1.
Qed.

Lemma tree_distance_self (n : Node.t) :
  all_nodes distinct_labels n = true -> evaluated n = true ->
  forall acc, exists d, PST.get_node_distance n (Some n) acc = Ok d /\ (d == acc)%Q.
Proof.
  induction n as [nm lv ch hc IH] using Node_induction. intros Hd Hev acc.
  rewrite tree_distance_unfold. simpl.
  destruct hc; simpl; [|exists acc; split; [reflexivity | apply Qeq_refl]].
  set (n := Node.mk nm lv ch true) in *.
  destruct (distance_loop_self n ch (all_nodes_here _ _ Hd) (all_nodes_here _ _ Hev)
              (incl_refl _) 0%Q) as (d0 & H0 & Hzero).
  unfold Node.get_node_distance. simpl. rewrite H0. simpl.
  destruct (distance_children_self n ch (all_nodes_here _ _ Hd) (incl_refl _)) with
    (acc := (acc + d0)%Q) as (d & Hloop & Hacc).
  - rewrite Forall_forall in *. intros [c i] Hin. simpl.
    apply (IH _ Hin).
    + exact (all_nodes_child _ _ _ _ Hd Hin).
    + exact (all_nodes_child _ _ _ _ Hev Hin).
  - exists d. split; [exact Hloop|]. rewrite Hacc, Hzero. ring.
Qed.

Lemma find_code (l : list (Node.t * Node.info)) (lbl : label) :
  match find (fun e => String.eqb (Node.name (fst e)) lbl) l with
  | Some (c2, i2) =>
      existsb (String.eqb lbl) (labels l) = true /\
      Node.scan l lbl = Some c2 /\ Node.name c2 = lbl /\ Node.getitem l lbl = Ok i2
  | None => existsb (String.eqb lbl) (labels l) = false
  end.
Proof.
  induction l as [|[c0 i0] rest IH]; simpl; [reflexivity|].
  rewrite (String.eqb_sym lbl).
  destruct (String.eqb_spec (Node.name c0) lbl) as [Heq|Hne]; simpl.
  - repeat split; [exact Heq].
  - exact IH.
Qed.

Lemma find_evaluated (o : Node.t) (lbl : label) (c2 : Node.t) (i2 : Node.info) :
  children_evaluated o = true -> same_labelled o lbl = Some (c2, i2) ->
  exists x, Node.p i2 = Some x.
Proof.
  intros Hev Hfind. apply find_some in Hfind. destruct Hfind as [Hin _].
  exact (evaluated_edge _ _ _ Hev Hin).
Qed.

Lemma distance_loop_spec (other : option Node.t) (l : list (Node.t * Node.info)) :
  forallb (fun e => match Node.p (snd e) with Some _ => true | None => false end) l = true ->
  (forall o, other = Some o -> children_evaluated o = true) ->
  forall acc, exists d ts,
      Node.distance_loop other l acc = Ok d /\
      spec_terms other l = Some ts /\ (d == acc + Qsum ts)%Q.
Proof.
  intros Hev Hother. induction l as [|[c1 i1] rest IH]; intros acc.
  - exists acc, []. repeat split. simpl. ring.
  - simpl in Hev. apply andb_prop in Hev. destruct Hev as [H1 Hrest].
    destruct (Node.p i1) as [p1|] eqn:Hp1; [|discriminate].
    cbn [Node.distance_loop spec_terms]. unfold Node.get_p. rewrite Hp1.
    destruct other as [o|]; simpl.
    + fold (labels (Node.children o)).
      pose proof (find_code (Node.children o) (Node.name c1)) as Hcode.
      pose proof (find_evaluated o (Node.name c1)) as Hfe.
      unfold same_labelled in *.
      destruct (find _ (Node.children o)) as [[c2 i2]|].
      * destruct Hcode as (Hex & Hscan & Hname & Hget).
        destruct (Hfe c2 i2 (Hother o eq_refl) eq_refl) as [p2 Hp2].
        unfold Node.get_child_by_name. rewrite Hex, Hscan, Hname, Hget. simpl.
        rewrite ?Hp1, Hp2. simpl.
        destruct (IH Hrest (acc + (p1 - p2) ^ 2)%Q) as (d & ts & Hloop & Hts & Hd).
        exists d, (((p1 - p2) ^ 2)%Q :: ts). rewrite Hts.
        repeat split; [exact Hloop|]. rewrite Hd. simpl. ring.
      * rewrite Hcode. rewrite ?Hp1. simpl.
        destruct (IH Hrest (acc + p1 ^ 2)%Q) as (d & ts & Hloop & Hts & Hd).
        exists d, ((p1 ^ 2)%Q :: ts). rewrite Hts.
        repeat split; [exact Hloop|]. rewrite Hd. simpl. ring.
    + destruct (IH Hrest (acc + p1 ^ 2)%Q) as (d & ts & Hloop & Hts & Hd).
      exists d, ((p1 ^ 2)%Q :: ts). rewrite Hts.
      repeat split; [exact Hloop|]. rewrite Hd. simpl. ring.
Qed.

Lemma spec_terms_None (l : list (Node.t * Node.info)) (ts : list Q) :
  spec_terms None l = Some ts ->
  exists ps, probs l = Some ps /\ ts = map (fun x => x ^ 2)%Q ps.
Proof.
  revert ts. induction l as [|[c1 i1] rest IH]; simpl; intros ts H.
  - injection H as <-. exists []. split; reflexivity.
  - destruct (Node.p i1) as [p1|]; [|discriminate].
    destruct (spec_terms None rest) as [ts'|]; [|discriminate].
    injection H as <-. destruct (IH _ eq_refl) as (ps & -> & ->).
    exists (p1 :: ps). split; reflexivity.
Qed.

Lemma lookups_extra (l : list (Node.t * Node.info)) (extra : Node.t * Node.info) (nm : label) :
  String.eqb (Node.name (fst extra)) nm = false ->
  existsb (String.eqb nm) (labels (l ++ [extra])) = existsb (String.eqb nm) (labels l) /\
  Node.scan (l ++ [extra]) nm = Node.scan l nm /\
  Node.getitem (l ++ [extra]) nm = Node.getitem l nm.
Proof.
  intros Hne. induction l as [|[c0 i0] rest (IH1 & IH2 & IH3)]; simpl.
  - destruct extra as [c i]. simpl in *. rewrite String.eqb_sym, Hne. repeat split.
  - rewrite IH1, IH2, IH3. repeat split.
Qed.

Lemma distance_loop_extra (o : Node.t) (extra : Node.t * Node.info)
  (l : list (Node.t * Node.info)) :
  existsb (String.eqb (Node.name (fst extra))) (labels l) = false ->
  forall acc, Node.distance_loop (Some (with_extra_child o extra)) l acc
              = Node.distance_loop (Some o) l acc.
Proof.
  induction l as [|[c1 i1] rest IH]; simpl; intros Hfresh acc; [reflexivity|].
  apply orb_false_elim in Hfresh. destruct Hfresh as [Hne Hrest].
  fold (labels (Node.children o ++ [extra])). fold (labels (Node.children o)).
  destruct (lookups_extra (Node.children o) extra (Node.name c1) Hne) as (-> & Hscan & Hget).
  unfold Node.get_child_by_name. simpl. rewrite Hscan.
  destruct (existsb (String.eqb (Node.name c1)) (labels (Node.children o))).
  - destruct (Node.scan (Node.children o) (Node.name c1)) as [c2|] eqn:Hc2; [|reflexivity].
    destruct (scan_Some _ _ _ Hc2) as [Hname _]. rewrite Hname, Hget.
    destruct (Node.getitem (Node.children o) (Node.name c1)) as [i2|]; simpl; [|reflexivity].
    destruct (Node.get_p i1); simpl; [|reflexivity].
    destruct (Node.get_p i2); simpl; [|reflexivity].
    apply IH. exact Hrest.
  - destruct (Node.get_p i1); simpl; [|reflexivity]. apply IH. exact Hrest.
Qed.

(** ** Repeated merges *)

Lemma incr_count_split (l : list (Node.t * Node.info)) (nm : label) (c : Node.t) :
  Node.scan l nm = Some c ->
  exists pre i post,
    l = pre ++ (c, i) :: post /\
    Node.incr_count l nm = pre ++ (c, Node.mkInfo (Node.count i + 1) (Node.p i)) :: post /\
    existsb (String.eqb nm) (labels pre) = false.
Proof.
  induction l as [|[c0 i0] rest IH]; simpl; [discriminate|].
  destruct (String.eqb (Node.name c0) nm) eqn:Heq; intros H.
  - injection H as <-. exists [], i0, rest. repeat split.
  - destruct (IH H) as (pre & i & post & -> & Hincr & Hpre).
    exists ((c0, i0) :: pre), i, post. simpl. rewrite Hincr.
    rewrite String.eqb_sym, Heq, Hpre. repeat split.
Qed.

Lemma getitem_incr_count (l : list (Node.t * Node.info)) (nm : label) (c : Node.t) :
  Node.scan l nm = Some c ->
  exists i, Node.getitem l nm = Ok i /\
            Node.getitem (Node.incr_count l nm) nm
            = Ok (Node.mkInfo (Node.count i + 1) (Node.p i)).
Proof.
  induction l as [|[c0 i0] rest IH]; simpl; [discriminate|].
  destruct (String.eqb (Node.name c0) nm) eqn:Heq; intros H; simpl; rewrite Heq.
  - exists i0. split; reflexivity.
  - exact (IH H).
Qed.

Lemma getitem_fresh (l : list (Node.t * Node.info)) (node : Node.t) (i : Node.info) :
  Node.scan l (Node.name node) = None ->
  Node.getitem l (Node.name node) = Raise KeyError /\
  Node.getitem (l ++ [(node, i)]) (Node.name node) = Ok i.
Proof.
  induction l as [|[c0 i0] rest IH]; simpl.
  - intros _. rewrite String.eqb_refl. split; reflexivity.
  - destruct (String.eqb (Node.name c0) (Node.name node)); [discriminate | exact IH].
Qed.

Lemma edge_count_add_child (self node : Node.t) :
  edge_count (fst (Node.add_child self node)) (Node.name node)
  = edge_count self (Node.name node) + 1.
Proof.
  unfold edge_count.
  destruct (Node.get_child_by_name self (Node.name node)) as [child|] eqn:Hc.
  - rewrite (add_child_found _ _ _ Hc). simpl.
    destruct (getitem_incr_count _ _ _ Hc) as (i & -> & ->). reflexivity.
  - rewrite (add_child_fresh _ _ Hc). simpl.
    destruct (getitem_fresh _ node (Node.mkInfo 1 None) Hc) as [-> ->]. reflexivity.
Qed.

Lemma distinct_add_child (self node : Node.t) :
  distinct_labels self = true -> distinct_labels (fst (Node.add_child self node)) = true.
Proof.
  unfold distinct_labels. intros Hd.
  destruct (Node.get_child_by_name self (Node.name node)) as [child|] eqn:Hc.
  - rewrite (add_child_found _ _ _ Hc). simpl. rewrite labels_incr_count. exact Hd.
  - rewrite (add_child_fresh _ _ Hc). simpl. rewrite labels_app. simpl.
    apply distinctb_app_fresh; [exact Hd | apply scan_None; exact Hc].
Qed.

Lemma present_add_child (self node : Node.t) :
  existsb (String.eqb (Node.name node))
          (labels (Node.children (fst (Node.add_child self node)))) = true.
Proof.
  destruct (Node.get_child_by_name self (Node.name node)) as [child|] eqn:Hc.
  - rewrite (add_child_found _ _ _ Hc). simpl. rewrite labels_incr_count.
    destruct (existsb _ _) eqn:Hex; [reflexivity|].
    apply scan_None in Hex. unfold Node.get_child_by_name in Hc. congruence.
  - rewrite (add_child_fresh _ _ Hc). simpl. rewrite labels_app, existsb_app. simpl.
    rewrite String.eqb_refl. apply orb_true_r.
Qed.

Lemma distinct_occurrences (l : list label) (x : label) :
  distinctb l = true ->
  length (filter (String.eqb x) l) = if existsb (String.eqb x) l then 1%nat else 0%nat.
Proof.
  induction l as [|y rest IH]; simpl; intros Hd; [reflexivity|].
  apply andb_prop in Hd. destruct Hd as [Hfresh Hrest].
  apply negb_true_iff in Hfresh. specialize (IH Hrest).
  destruct (String.eqb_spec x y) as [->|Hne]; simpl.
  - rewrite IH, Hfresh. reflexivity.
  - exact IH.
Qed.

Lemma merge_all_counts (lbl : label) (cands : list Node.t) :
  Forall (fun cand => Node.name cand = lbl) cands ->
  forall self, distinct_labels self = true ->
    distinct_labels (merge_all self cands) = true /\
    edge_count (merge_all self cands) lbl = len cands + edge_count self lbl /\
    (cands <> [] -> occurrences (merge_all self cands) lbl = 1%nat).
Proof.
  unfold merge_all, len.
  induction 1 as [|cand rest Hname _ IH]; intros self Hd.
  - simpl. split; [exact Hd|]. split; [lia | congruence].
  - cbn [fold_left].
    pose proof (distinct_add_child self cand Hd) as Hd'.
    destruct (IH _ Hd') as (Hdist & Hcount & Hocc).
    split; [exact Hdist|]. split.
    + rewrite Hcount, <- Hname, edge_count_add_child. simpl length. lia.
    + intros _. destruct rest as [|cand' rest'].
      * simpl. unfold occurrences.
        rewrite (distinct_occurrences _ lbl Hd'), <- Hname, present_add_child. reflexivity.
      * apply Hocc. discriminate.
Qed.

(** ** Queries on an evaluated model *)

Lemma model_evaluated_tree (m : PST_model.t) (nm : label) (pst : PST.t) :
  model_evaluated m = true -> PST_model.get_PST_by_name m nm = Some pst ->
  evaluated (PST.root pst) = true.
Proof.
  unfold model_evaluated, PST_model.get_PST_by_name. rewrite forallb_forall.
  intros Hall Hfind. apply find_tree_In in Hfind. exact (Hall _ (proj1 Hfind)).
Qed.

Lemma get_event_prob_total (m : PST_model.t) (subchain : list label) :
  1 <= PST_model._depth m -> model_evaluated m = true ->
  exists v, PST_model.get_event_prob m subchain = Ok v.
Proof.
  intros Hdepth Hev. unfold PST_model.get_event_prob.
  destruct (Z.eqb_spec (len subchain) (PST_model._depth m)) as [Hlen|_]; simpl;
    [|eexists; reflexivity].
  destruct subchain as [|first rest]; [unfold len in Hlen; simpl in Hlen; lia|].
  destruct (PST_model.get_PST_by_name m first) as [pst|] eqn:Hfind; [|eexists; reflexivity].
  destruct (walk_total rest (PST.root pst) 1%Q (model_evaluated_tree _ _ _ Hev Hfind)) as [q Hq].
  exists (VNum q). exact Hq.
Qed.

Lemma evaluate_trees_evaluated (l l' : list PST.t) :
  mapM PST.evaluate_probability l = Ok l' ->
  forallb (fun tree => evaluated (PST.root tree)) l' = true.
Proof.
  revert l'. induction l as [|t rest IH]; simpl; intros l' H.
  - injection H as <-. reflexivity.
  - apply bind_Ok in H. destruct H as (t' & Ht' & H).
    apply bind_Ok in H. destruct H as (rest' & Hrest & H).
    injection H as <-. simpl. rewrite (IH _ Hrest), andb_true_r.
    unfold PST.evaluate_probability in Ht'.
    apply bind_Ok in Ht'. destruct Ht' as (root' & Hroot & Ht'). injection Ht' as <-.
    simpl. exact (evaluate_evaluated _ _ Hroot).
Qed.

Lemma fit_subchains_evaluated (m m' : PST_model.t) (subchains : list (list label)) :
  PST_model.fit_subchains m subchains = Ok m' -> model_evaluated m' = true.
Proof.
  unfold PST_model.fit_subchains, PST_model.evaluate_trees. intros H.
  apply bind_Ok in H. destruct H as (m1 & _ & H).
  apply bind_Ok in H. destruct H as (trees' & Htrees & H). injection H as <-.
  unfold model_evaluated. simpl. exact (evaluate_trees_evaluated _ _ Htrees).
Qed.

Lemma query_missing_child (m : PST_model.t) (first : label) (pre : list label) (e : label)
  (post : list label) (pst : PST.t) (n : Node.t) :
  len (first :: pre ++ e :: post) = PST_model._depth m ->
  PST_model.get_PST_by_name m first = Some pst ->
  evaluated (PST.root pst) = true ->
  descend (PST.root pst) pre = Some n ->
  Node.get_child_by_name n e = None ->
  PST_model.get_event_prob m (first :: pre ++ e :: post) = Ok (VNum 0).
Proof.
  intros Hlen Hfind Hev Hpath Hmiss.
  unfold PST_model.get_event_prob. rewrite Hlen, Z.eqb_refl, Hfind. simpl.
  destruct (walk_prefix pre (e :: post) _ _ 1%Q Hev Hpath) as [prob' ->].
  simpl. rewrite Hmiss. reflexivity.
Qed.

Lemma scenario_model_fitted : scenario_model = Ok scenario_fitted.
Proof. reflexivity. Qed.

(** * The claims *)

(** C6. Windowing: a sequence of length L cut at depth d gives max(L - d, 0)
    windows; the i-th window is the slice [i : i + d], of length d; a
    sequence with L <= d gives no window at all; and no window starts at
    index L - d, so the last window that would fit is not produced. *)
Theorem get_subchains_windows (m : PST_model.t) (chain : list label) :
  0 <= PST_model._depth m ->
  len (PST_model._get_subchains m chain) = Z.max (len chain - PST_model._depth m) 0 /\
  (forall i, 0 <= i < len chain - PST_model._depth m ->
     nth_error (PST_model._get_subchains m chain) (Z.to_nat i)
     = Some (firstn (Z.to_nat (PST_model._depth m)) (skipn (Z.to_nat i) chain)) /\
     len (firstn (Z.to_nat (PST_model._depth m)) (skipn (Z.to_nat i) chain))
     = PST_model._depth m) /\
  (len chain <= PST_model._depth m -> PST_model._get_subchains m chain = []) /\
  nth_error (PST_model._get_subchains m chain)
            (Z.to_nat (len chain - PST_model._depth m)) = None.
Proof.
  intros Hd. unfold PST_model._get_subchains.
  set (d := PST_model._depth m) in *.
  assert (Hlen : length (map (fun i => py_slice chain i (i + d)) (py_range (len chain - d)))
                 = Z.to_nat (len chain - d)).
  { rewrite length_map. apply py_range_length. }
  split; [|split; [|split]].
  - unfold len at 1. rewrite Hlen. lia.
  - intros i Hi.
    destruct (py_slice_inside chain i d) as [Hslice Hsize]; [lia | lia | lia |].
    rewrite nth_error_map, py_range_nth by lia. simpl.
    rewrite Z2Nat.id by lia. rewrite <- Hslice. split; [reflexivity | exact Hsize].
  - intros Hshort. unfold py_range.
    replace (Z.to_nat (len chain - d)) with 0%nat by lia. reflexivity.
  - apply nth_error_None. rewrite Hlen. lia.
Qed.

Lemma get_subchains_windows_witness :
  0 <= PST_model._depth (PST_model.init 3) /\
  len (PST_model._get_subchains (PST_model.init 3) scenario_chain) = 7.
Proof.
  split; [simpl; lia|].
  exact (proj1 (get_subchains_windows (PST_model.init 3) scenario_chain
                  ltac:(simpl; lia))).
Defined.

(** C9. Absorption never looks at the first element of the chain: two
    chains of equal length that agree after their first element leave the
    tree in the same state, which is also the state reached with the chain
    whose first element is the label of the tree. *)
Theorem add_subchain_ignores_first (t : PST.t) (c c' : list label) :
  length c = length c' -> tl c = tl c' ->
  PST.add_subchain t c = PST.add_subchain t c' /\
  PST.add_subchain t c = PST.add_subchain t (PST.name t :: tl c').
Proof.
  intros _ Htl. unfold PST.add_subchain. simpl. rewrite Htl. split; reflexivity.
Qed.

(** C10. With depth 1, the probability of a window [x] whose tree exists is
    exactly 1: the running product starts at 1 and no edge is walked. *)
Theorem trivial_walk_probability (m : PST_model.t) (x : label) (pst : PST.t) :
  PST_model._depth m = 1 -> PST_model.get_PST_by_name m x = Some pst ->
  PST_model.get_event_prob m [x] = Ok (VNum 1).
Proof.
  intros Hd Hfind. unfold PST_model.get_event_prob.
  rewrite Hd, Hfind. reflexivity.
Qed.

(** C7. A query never raises on its three soft failures: a window of the
    wrong length gives the invalid result [None]; a window of the right
    length whose first element has no tree gives 0; and a walk that meets a
    node without the child it needs gives 0 at that step. *)
Theorem get_event_prob_soft_failures (m : PST_model.t) :
  (forall window, len window <> PST_model._depth m ->
                  PST_model.get_event_prob m window = Ok VNone) /\
  (forall first rest,
      len (first :: rest) = PST_model._depth m ->
      PST_model.get_PST_by_name m first = None ->
      PST_model.get_event_prob m (first :: rest) = Ok (VNum 0)) /\
  (forall first pre e post pst n,
      len (first :: pre ++ e :: post) = PST_model._depth m ->
      PST_model.get_PST_by_name m first = Some pst ->
      evaluated (PST.root pst) = true ->
      descend (PST.root pst) pre = Some n ->
      Node.get_child_by_name n e = None ->
      PST_model.get_event_prob m (first :: pre ++ e :: post) = Ok (VNum 0)).
Proof.
  split; [|split].
  - intros window Hlen. unfold PST_model.get_event_prob.
    destruct (Z.eqb_spec (len window) (PST_model._depth m)); [contradiction | reflexivity].
  - intros first rest Hlen Hfind. unfold PST_model.get_event_prob.
    rewrite Hlen, Z.eqb_refl, Hfind. reflexivity.
  - exact (query_missing_child m).
Qed.

Lemma add_subchain_ignores_first_witness :
  length ["A"; "B"; "D"]%string = length ["X"; "B"; "D"]%string /\
  tl ["A"; "B"; "D"]%string = tl ["X"; "B"; "D"]%string /\
  PST.add_subchain scenario_tree_A ["A"; "B"; "D"]%string
  = PST.add_subchain scenario_tree_A ["X"; "B"; "D"]%string.
Proof.
  split; [reflexivity|]. split; [reflexivity|].
  exact (proj1 (add_subchain_ignores_first scenario_tree_A
                  ["A"; "B"; "D"]%string ["X"; "B"; "D"]%string eq_refl eq_refl)).
Defined.

Lemma trivial_walk_probability_witness :
  PST_model._depth unit_model = 1 /\
  PST_model.get_PST_by_name unit_model "A"%string
  = Some (PST.mk (Node.init None "A"%string) "A"%string 1 0) /\
  PST_model.get_event_prob unit_model ["A"%string] = Ok (VNum 1).
Proof.
  split; [reflexivity|]. split; [reflexivity|].
  exact (trivial_walk_probability unit_model "A"%string _ eq_refl eq_refl).
Defined.

Lemma get_event_prob_soft_failures_witness :
  (len ["A"; "B"]%string <> PST_model._depth scenario_fitted /\
   PST_model.get_event_prob scenario_fitted ["A"; "B"]%string = Ok VNone) /\
  (len ["Z"; "B"; "C"]%string = PST_model._depth scenario_fitted /\
   PST_model.get_PST_by_name scenario_fitted "Z"%string = None /\
   PST_model.get_event_prob scenario_fitted ["Z"; "B"; "C"]%string = Ok (VNum 0)) /\
  (len ("A" :: ["B"] ++ "X" :: [])%string = PST_model._depth scenario_fitted /\
   PST_model.get_PST_by_name scenario_fitted "A"%string = Some scenario_tree_A /\
   evaluated (PST.root scenario_tree_A) = true /\
   descend (PST.root scenario_tree_A) ["B"%string] = Some scenario_node_B /\
   Node.get_child_by_name scenario_node_B "X"%string = None /\
   PST_model.get_event_prob scenario_fitted ("A" :: ["B"] ++ "X" :: [])%string
   = Ok (VNum 0)).
Proof.
  destruct (get_event_prob_soft_failures scenario_fitted) as (Hlength & Hroot & Hwalk).
  assert (Ha : len ["A"; "B"]%string <> PST_model._depth scenario_fitted)
    by (vm_compute; discriminate).
  split; [|split].
  - split; [exact Ha | exact (Hlength _ Ha)].
  - split; [reflexivity|]. split; [reflexivity|].
    exact (Hroot "Z"%string ["B"; "C"]%string eq_refl eq_refl).
  - split; [reflexivity|]. split; [reflexivity|]. split; [reflexivity|].
    split; [reflexivity|]. split; [reflexivity|].
    exact (Hwalk "A"%string ["B"%string] "X"%string [] scenario_tree_A scenario_node_B
             eq_refl eq_refl eq_refl eq_refl eq_refl).
Defined.

Lemma built_evaluate (t : PST.t) :
  built t ->
  exists t', PST.evaluate_probability t = Ok t' /\ built t' /\
             evaluated (PST.root t') = true.
Proof.
  intros Hb.
  destruct (evaluate_total (PST.root t)) as [root' Hroot].
  { apply (all_nodes_weaken node_ok); [exact node_ok_positive | exact (built_ok t Hb)]. }
  assert (Heval : PST.evaluate_probability t
                  = Ok (PST.mk root' (PST.name t) (PST.depth t) (PST.power t))).
  { unfold PST.evaluate_probability. rewrite Hroot. reflexivity. }
  eexists. split; [exact Heval|]. split.
  - exact (built_eval _ _ Hb Heval).
  - exact (evaluate_evaluated _ _ Hroot).
Qed.

Lemma scenario_counted_tree_built : built scenario_counted_tree.
Proof.
  unfold scenario_counted_tree. cbn [PST.init].
  apply built_add, built_add. apply (built_init ["A"; "B"; "C"]%string). reflexivity.
Defined.

(** C2. After the evaluation pass of a tree, at every node that has a
    child the probabilities of the children sum to one, each being the
    child's count over the sum of the counts of all the children; the pass
    itself succeeds, the counts being positive. *)
Theorem evaluation_sums_to_one (t : PST.t) :
  built t ->
  exists t',
    PST.evaluate_probability t = Ok t' /\
    forall n, In n (subnodes (PST.root t')) -> Node.children n <> [] ->
              sums_to_one n /\ count_over_sum n.
Proof.
  intros Hb. destruct (built_evaluate t Hb) as (t' & Heval & _ & _).
  exists t'. split; [exact Heval|].
  unfold PST.evaluate_probability in Heval.
  apply bind_Ok in Heval. destruct Heval as (root' & Hroot & Heval).
  injection Heval as <-. simpl.
  pose proof (evaluate_count_over_sum _ _ Hroot) as Hall.
  rewrite Forall_forall in Hall.
  intros n Hin Hne. destruct (Hall n Hin Hne) as [Hratio Hs].
  split; [exact (count_over_sum_sums n Hratio Hs) | exact Hratio].
Qed.

Lemma evaluation_sums_to_one_witness :
  built scenario_counted_tree /\
  exists t',
    PST.evaluate_probability scenario_counted_tree = Ok t' /\
    forall n, In n (subnodes (PST.root t')) -> Node.children n <> [] ->
              sums_to_one n /\ count_over_sum n.
Proof.
  split.
  - exact scenario_counted_tree_built.
  - exact (evaluation_sums_to_one scenario_counted_tree scenario_counted_tree_built).
Defined.

(** C5. The distance of an evaluated tree to itself is 0. *)
Theorem distance_to_itself (t : PST.t) :
  built t ->
  exists t',
    PST.evaluate_probability t = Ok t' /\
    exists d, PST.get_distance t' t' = Ok d /\ (d == 0)%Q.
Proof.
  intros Hb. destruct (built_evaluate t Hb) as (t' & Heval & Hb' & Hev).
  exists t'. split; [exact Heval|].
  unfold PST.get_distance. apply tree_distance_self; [|exact Hev].
  apply (all_nodes_weaken node_ok); [exact node_ok_distinct | exact (built_ok t' Hb')].
Qed.

Lemma distance_to_itself_witness :
  built scenario_counted_tree /\
  exists t',
    PST.evaluate_probability scenario_counted_tree = Ok t' /\
    exists d, PST.get_distance t' t' = Ok d /\ (d == 0)%Q.
Proof.
  split.
  - exact scenario_counted_tree_built.
  - exact (distance_to_itself scenario_counted_tree scenario_counted_tree_built).
Defined.

(** C3. Merging a candidate child: when a child of the candidate's label
    exists, its count grows by 1, the existing child is returned and the
    dict gets no new entry; otherwise the candidate is appended with count 1
    and returned.  Hence merging N >= 1 candidates of one label into a node
    leaves exactly one child of that label, whose count is N plus the count
    it had, and no node of a built tree has two children of the same label. *)
Theorem add_child_merges (self cand : Node.t) :
  (forall child,
      Node.get_child_by_name self (Node.name cand) = Some child ->
      snd (Node.add_child self cand) = child /\
      exists pre i post,
        Node.children self = pre ++ (child, i) :: post /\
        existsb (String.eqb (Node.name cand)) (labels pre) = false /\
        Node.children (fst (Node.add_child self cand))
        = pre ++ (child, Node.mkInfo (Node.count i + 1) (Node.p i)) :: post) /\
  (Node.get_child_by_name self (Node.name cand) = None ->
   snd (Node.add_child self cand) = cand /\
   Node.children (fst (Node.add_child self cand))
   = Node.children self ++ [(cand, Node.mkInfo 1 None)]) /\
  (forall cands,
      distinct_labels self = true -> cands <> [] ->
      Forall (fun c => Node.name c = Node.name cand) cands ->
      occurrences (merge_all self cands) (Node.name cand) = 1%nat /\
      edge_count (merge_all self cands) (Node.name cand)
      = len cands + edge_count self (Node.name cand)) /\
  (distinct_labels self = true ->
   distinct_labels (fst (Node.add_child self cand)) = true) /\
  (forall t, built t -> all_nodes distinct_labels (PST.root t) = true).
Proof.
  split; [|split; [|split; [|split]]].
  - intros child Hc. rewrite (add_child_found _ _ _ Hc). simpl.
    split; [reflexivity|].
    destruct (incr_count_split _ _ _ Hc) as (pre & i & post & Hsplit & Hincr & Hpre).
    exists pre, i, post. repeat split; assumption.
  - intros Hc. rewrite (add_child_fresh _ _ Hc). simpl. split; reflexivity.
  - intros cands Hd Hne Hall.
    destruct (merge_all_counts (Node.name cand) cands Hall self Hd) as (_ & Hcount & Hocc).
    split; [exact (Hocc Hne) | exact Hcount].
  - apply distinct_add_child.
  - intros t Hb.
    apply (all_nodes_weaken node_ok); [exact node_ok_distinct | exact (built_ok t Hb)].
Qed.

Lemma add_child_merges_witness :
  (Node.get_child_by_name scenario_node_B "C"%string
   = Some (Node.mk "C"%string 2 [] false) /\
   snd (Node.add_child scenario_node_B (Node.init (Some scenario_node_B) "C"%string))
   = Node.mk "C"%string 2 [] false) /\
  (Node.get_child_by_name scenario_node_B "E"%string = None /\
   snd (Node.add_child scenario_node_B (Node.init (Some scenario_node_B) "E"%string))
   = Node.init (Some scenario_node_B) "E"%string) /\
  (distinct_labels scenario_node_B = true /\
   occurrences (merge_all scenario_node_B
                  [Node.init (Some scenario_node_B) "C"; Node.init None "C";
                   Node.init None "C"]%string) "C"%string = 1%nat /\
   edge_count (merge_all scenario_node_B
                 [Node.init (Some scenario_node_B) "C"; Node.init None "C";
                  Node.init None "C"]%string) "C"%string = 3 + 2) /\
  distinct_labels (fst (Node.add_child scenario_node_B
                          (Node.init (Some scenario_node_B) "C"%string))) = true /\
  (built scenario_counted_tree /\
   all_nodes distinct_labels (PST.root scenario_counted_tree) = true).
Proof.
  destruct (add_child_merges scenario_node_B (Node.init (Some scenario_node_B) "C"%string))
    as (Hfound & _ & Hmany & Hdistinct & Hbuilt).
  destruct (add_child_merges scenario_node_B (Node.init (Some scenario_node_B) "E"%string))
    as (_ & Hfresh & _).
  assert (Hc : Node.get_child_by_name scenario_node_B "C"%string
               = Some (Node.mk "C"%string 2 [] false)) by reflexivity.
  assert (Hd : distinct_labels scenario_node_B = true) by reflexivity.
  split; [|split; [|split; [|split]]].
  - split; [exact Hc | exact (proj1 (Hfound _ Hc))].
  - split; [reflexivity | exact (proj1 (Hfresh eq_refl))].
  - split; [exact Hd|].
    apply (Hmany [Node.init (Some scenario_node_B) "C"; Node.init None "C";
                  Node.init None "C"]%string Hd).
    + discriminate.
    + repeat constructor.
  - exact (Hdistinct Hd).
  - split; [exact scenario_counted_tree_built | exact (Hbuilt _ scenario_counted_tree_built)].
Defined.

(** C4. The distance from an evaluated node to another node, or to none:
    0 when this node has no children, and otherwise the sum over this node's
    children of (p1 - p2)^2 for a child matched by label in the other node
    and of p1^2 for the others.  Against none it is the sum of the squares of
    this node's probabilities, and a child of the other node whose label this
    node does not have changes nothing. *)
Theorem node_distance_spec (n : Node.t) (other : option Node.t) :
  flag_ok n = true ->
  children_evaluated n = true ->
  (forall o, other = Some o -> children_evaluated o = true) ->
  exists d s,
    Node.get_node_distance n other = Ok d /\
    spec_distance n other = Some s /\ (d == s)%Q /\
    (Node.children n = [] -> d = 0%Q) /\
    (other = None ->
     exists ps, child_probs n = Some ps /\ (d == Qsum (map (fun x => x ^ 2) ps))%Q) /\
    (forall o extra,
        other = Some o ->
        existsb (String.eqb (Node.name (fst extra))) (labels (Node.children n)) = false ->
        Node.get_node_distance n (Some (with_extra_child o extra)) = Ok d).
Proof.
  destruct n as [nm lv ch hc]. unfold flag_ok, children_evaluated. simpl.
  intros Hflag Hev Hother.
  apply Bool.eqb_prop in Hflag.
  destruct (distance_loop_spec other ch Hev Hother 0%Q) as (d & ts & Hloop & Hts & Hd).
  unfold Node.get_node_distance, spec_distance, child_probs. simpl.
  destruct ch as [|e rest].
  - simpl in Hflag. subst hc. simpl.
    exists 0%Q, 0%Q. repeat split; try reflexivity.
    intros _. exists []. split; reflexivity.
  - unfold len in Hflag. simpl length in Hflag.
    replace (Z.of_nat (S (length rest)) =? 0) with false in Hflag
      by (symmetry; apply Z.eqb_neq; lia).
    simpl in Hflag. subst hc. simpl negb. cbv iota.
    exists d, (Qsum ts). rewrite Hts. simpl option_map.
    split; [exact Hloop|]. split; [reflexivity|].
    split; [rewrite Hd; apply Qplus_0_l|]. split; [discriminate|]. split.
    + intros ->. destruct (spec_terms_None _ _ Hts) as (ps & Hps & ->).
      exists ps. split; [exact Hps|]. rewrite Hd. apply Qplus_0_l.
    + intros o extra -> Hfresh.
      rewrite (distance_loop_extra o extra _ Hfresh). exact Hloop.
Qed.

Lemma node_distance_spec_witness :
  flag_ok scenario_node_B = true /\
  children_evaluated scenario_node_B = true /\
  exists d,
    Node.get_node_distance scenario_node_B (Some (PST.root scenario_tree_A)) = Ok d /\
    (d == (2 # 3) ^ 2 + (1 # 3) ^ 2)%Q.
Proof.
  split; [reflexivity|]. split; [reflexivity|].
  destruct (node_distance_spec scenario_node_B (Some (PST.root scenario_tree_A))
              eq_refl eq_refl) as (d & s & Hd & Hs & Heq & _).
  - intros o Ho. injection Ho as <-. reflexivity.
  - exists d. split; [exact Hd|].
    rewrite Heq. vm_compute in Hs. injection Hs as <-. reflexivity.
Defined.

Lemma firstn_skipn_exact {A : Type} (l l' : list A) (k : nat) :
  length l = k -> firstn k (l ++ l') = l /\ skipn k (l ++ l') = l'.
Proof.
  revert k. induction l as [|a rest IH]; simpl; intros k Hk; subst k.
  - split; reflexivity.
  - destruct (IH _ eq_refl) as [H1 H2]. simpl. rewrite H1, H2. split; reflexivity.
Qed.

(** C8, as the code has it.  On an evaluated model of depth d >= 1 the
    result for a sequence of length L has length max(L, d), which is L
    exactly when L >= d; its first d entries are NaN and the entries after
    them are the event probabilities of the successive windows of the
    sequence, in order. *)
Theorem get_chain_prob_layout (m : PST_model.t) (chain : list label) :
  1 <= PST_model._depth m ->
  model_evaluated m = true ->
  exists res,
    PST_model.get_chain_prob m chain = Ok res /\
    len res = Z.max (len chain) (PST_model._depth m) /\
    (PST_model._depth m <= len chain -> len res = len chain) /\
    firstn (Z.to_nat (PST_model._depth m)) res = py_repeat VNaN (PST_model._depth m) /\
    map Ok (skipn (Z.to_nat (PST_model._depth m)) res)
    = map (PST_model.get_event_prob m) (PST_model._get_subchains m chain).
Proof.
  intros Hd Hev. unfold PST_model.get_chain_prob.
  destruct (mapM_total (PST_model.get_event_prob m) (PST_model._get_subchains m chain))
    as [probs Hprobs].
  { apply Forall_forall. intros w _. exact (get_event_prob_total m w Hd Hev). }
  rewrite Hprobs. simpl.
  exists (py_repeat VNaN (PST_model._depth m) ++ probs). split; [reflexivity|].
  assert (Hlen : len (py_repeat VNaN (PST_model._depth m) ++ probs)
                 = Z.max (len chain) (PST_model._depth m)).
  { unfold len, py_repeat. rewrite length_app, repeat_length, (mapM_length _ _ _ Hprobs).
    unfold PST_model._get_subchains. rewrite length_map, py_range_length.
    unfold len. lia. }
  destruct (firstn_skipn_exact (py_repeat VNaN (PST_model._depth m)) probs
              (Z.to_nat (PST_model._depth m))) as [Hfirst Hskip].
  { unfold py_repeat. apply repeat_length. }
  split; [exact Hlen|]. split; [intros Hle; rewrite Hlen; lia|].
  split; [exact Hfirst|]. rewrite Hskip. exact (mapM_pointwise _ _ _ Hprobs).
Qed.

Lemma get_chain_prob_layout_witness :
  1 <= PST_model._depth scenario_fitted /\
  model_evaluated scenario_fitted = true /\
  exists res,
    PST_model.get_chain_prob scenario_fitted scenario_chain = Ok res /\
    len res = len scenario_chain.
Proof.
  split; [vm_compute; discriminate|]. split; [reflexivity|].
  destruct (get_chain_prob_layout scenario_fitted scenario_chain)
    as (res & Hres & _ & Hlen & _).
  - vm_compute. discriminate.
  - reflexivity.
  - exists res. split; [exact Hres|]. apply Hlen. vm_compute. discriminate.
Defined.

(** C8 as stated fails on a sequence shorter than the depth: depth 3 and
    the sequence A give three NaN, not one entry. *)
Lemma get_chain_prob_short_chain :
  PST_model.get_chain_prob scenario_fitted ["A"%string] = Ok [VNaN; VNaN; VNaN] /\
  ~ (forall (m : PST_model.t) (chain : list label) (res : list value),
        PST_model.get_chain_prob m chain = Ok res -> len res = len chain).
Proof.
  assert (H : PST_model.get_chain_prob scenario_fitted ["A"%string]
              = Ok [VNaN; VNaN; VNaN]) by reflexivity.
  split; [exact H|].
  intros Hall. specialize (Hall _ _ _ H). discriminate Hall.
Qed.

(** C1. The scenario at depth 3.  Training on the windows [A,B,C], [A,B,D],
    [A,B,C] gives one tree, A, built from the first window and having
    absorbed the other two.  Its node B has exactly the children C, of
    count 2, and D, of count 1, with P(C|A,B) = 2/3 and P(D|A,B) = 1/3.
    The probability of [A,B,C] is 2/3, that of [A,B,D] is 1/3, that of
    [A,B,X] is 0 for every X other than C and D, and the window [A,B], of
    length 2, gets the invalid result.  The same tree of A results from
    fitting a sequence whose windows starting with A are these three. *)
Theorem scenario_depth3 :
  scenario_model = Ok scenario_fitted /\
  PST_model.trees scenario_fitted = [scenario_tree_A] /\
  PST.name scenario_tree_A = "A"%string /\
  PST.power scenario_tree_A = 2 /\
  PST.evaluate_probability scenario_counted_tree = Ok scenario_tree_A /\
  descend (PST.root scenario_tree_A) ["B"%string] = Some scenario_node_B /\
  labels (Node.children scenario_node_B) = ["C"; "D"]%string /\
  edge_count scenario_node_B "C"%string = 2 /\
  edge_count scenario_node_B "D"%string = 1 /\
  (exists pc pd,
      edge_prob scenario_node_B "C"%string = Some pc /\ (pc == 2 # 3)%Q /\
      edge_prob scenario_node_B "D"%string = Some pd /\ (pd == 1 # 3)%Q) /\
  (exists v, PST_model.get_event_prob scenario_fitted ["A"; "B"; "C"]%string = Ok v /\
             value_eq v (VNum (2 # 3))) /\
  (exists v, PST_model.get_event_prob scenario_fitted ["A"; "B"; "D"]%string = Ok v /\
             value_eq v (VNum (1 # 3))) /\
  (forall X : label,
      X <> "C"%string -> X <> "D"%string ->
      PST_model.get_event_prob scenario_fitted ["A"%string; "B"%string; X] = Ok (VNum 0)) /\
  PST_model.get_event_prob scenario_fitted ["A"; "B"]%string = Ok VNone /\
  (exists m, PST_model.fit (PST_model.init 3) scenario_chain = Ok m /\
             PST_model.get_PST_by_name m "A"%string = Some scenario_tree_A).
Proof.
  split; [reflexivity|]. split; [reflexivity|]. split; [reflexivity|].
  split; [reflexivity|]. split; [reflexivity|]. split; [reflexivity|].
  split; [reflexivity|]. split; [reflexivity|]. split; [reflexivity|].
  split.
  { eexists. eexists. split; [reflexivity|]. split; [reflexivity|].
    split; reflexivity. }
  split.
  { eexists. split; [reflexivity|]. reflexivity. }
  split.
  { eexists. split; [reflexivity|]. reflexivity. }
  split.
  { intros X HC HD.
    apply (query_missing_child scenario_fitted "A"%string ["B"%string] X []
             scenario_tree_A scenario_node_B); try reflexivity.
    change (Node.scan (Node.children scenario_node_B) X = None).
    apply scan_None.
    change (existsb (String.eqb X) ["C"; "D"]%string = false).
    simpl. apply String.eqb_neq in HC, HD. rewrite HC, HD. reflexivity. }
  split; [reflexivity|].
  eexists. split; reflexivity.
Qed.

Lemma scenario_depth3_witness :
  "X"%string <> "C"%string /\ "X"%string <> "D"%string /\
  PST_model.get_event_prob scenario_fitted ["A"; "B"; "X"]%string = Ok (VNum 0).
Proof.
  assert (HC : "X"%string <> "C"%string) by discriminate.
  assert (HD : "X"%string <> "D"%string) by discriminate.
  split; [exact HC|]. split; [exact HD|].
  exact (proj1 (proj2 (proj2 (proj2 (proj2 (proj2 (proj2 (proj2 (proj2 (proj2
          (proj2 (proj2 (proj2 scenario_depth3)))))))))))) "X"%string HC HD).
Defined.

(** * Further properties *)

(** ** One step of absorption *)

Lemma replace_key_split (pre post : list (Node.t * Node.info)) (c c' : Node.t)
  (i : Node.info) (nm : label) :
  existsb (String.eqb nm) (labels pre) = false -> Node.name c = nm ->
  Node.replace_key (pre ++ (c, i) :: post) nm c' = pre ++ (c', i) :: post.
Proof.
  intros Hpre Hname. induction pre as [|[c0 i0] pre IH]; simpl in *.
  - rewrite Hname, String.eqb_refl. reflexivity.
  - apply orb_false_elim in Hpre. destruct Hpre as [Hne Hpre].
    rewrite String.eqb_sym, Hne, (IH Hpre). reflexivity.
Qed.

Lemma replace_key_fresh (l : list (Node.t * Node.info)) (c c' : Node.t)
  (i : Node.info) (nm : label) :
  Node.scan l nm = None -> Node.name c = nm ->
  Node.replace_key (l ++ [(c, i)]) nm c' = l ++ [(c', i)].
Proof.
  intros Hscan Hname. apply scan_None in Hscan.
  rewrite (replace_key_split l [] c c' i nm Hscan Hname). reflexivity.
Qed.

Lemma absorb_found (n child : Node.t) (x : label) (xs : list label) :
  Node.scan (Node.children n) x = Some child ->
  exists pre i post,
    Node.children n = pre ++ (child, i) :: post /\
    existsb (String.eqb x) (labels pre) = false /\
    PST.absorb n (x :: xs)
    = Node.mk (Node.name n) (Node.level n)
              (pre ++ (PST.absorb child xs, Node.mkInfo (Node.count i + 1) (Node.p i)) :: post)
              true.
Proof.
  intros Hscan.
  destruct (incr_count_split _ _ _ Hscan) as (pre & i & post & Hsplit & Hincr & Hpre).
  destruct (scan_Some _ _ _ Hscan) as [Hname _].
  exists pre, i, post. split; [exact Hsplit|]. split; [exact Hpre|].
  cbn [PST.absorb].
  rewrite (add_child_found n (Node.init (Some n) x) child Hscan).
  unfold Node.write_back. simpl. rewrite Hname, Hincr.
  rewrite (replace_key_split pre post child _ _ x Hpre Hname). reflexivity.
Qed.

Lemma absorb_fresh (n : Node.t) (x : label) (xs : list label) :
  Node.scan (Node.children n) x = None ->
  PST.absorb n (x :: xs)
  = Node.mk (Node.name n) (Node.level n)
            (Node.children n
             ++ [(PST.absorb (Node.init (Some n) x) xs, Node.mkInfo 1 None)])
            true.
Proof.
  intros Hscan. cbn [PST.absorb].
  rewrite (add_child_fresh n (Node.init (Some n) x) Hscan).
  unfold Node.write_back. simpl.
  rewrite (replace_key_fresh _ (Node.init (Some n) x) _ _ x Hscan eq_refl). reflexivity.
Qed.

(** ** The constructor *)

Lemma absorb_linear (elems : list label) :
  forall nm lv, PST.absorb (Node.mk nm lv [] false) elems = linear_path nm lv elems.
Proof.
  induction elems as [|e rest IH]; intros nm lv; [reflexivity|].
  rewrite absorb_fresh by reflexivity. simpl. rewrite <- IH. reflexivity.
Qed.

(** X1. The constructor of a tree: the empty chain raises IndexError; a
    chain [first :: rest] gives the single path that it spells, every edge
    counted once and without probability, with the depth set to the length
    of the chain and the power to 0. *)
Theorem init_linear_path (chain : list label) :
  PST.init chain
  = match chain with
    | [] => Raise IndexError
    | first :: rest => Ok (PST.mk (linear_path first 0 rest) first (len chain) 0)
    end.
Proof.
  destruct chain as [|first rest]; [reflexivity|].
  unfold PST.init. rewrite init_path_absorb by reflexivity.
  unfold Node.init. rewrite absorb_linear. reflexivity.
Qed.

(** ** What the evaluation pass changes *)

Lemma Forall2_Forall_map_eq {A B C : Type} (R : A -> B -> Prop) (P : A -> Prop)
  (f : A -> C) (g : B -> C) (l : list A) (l' : list B) :
  Forall2 R l l' -> Forall P l -> (forall a b, P a -> R a b -> f a = g b) ->
  map f l = map g l'.
Proof.
  intros HR HP Hstep. revert HP.
  induction HR as [|a b rest rest' Hab _ IH]; intros HP; simpl; [reflexivity|].
  rewrite (Hstep a b (Forall_inv HP) Hab), (IH (Forall_inv_tail HP)). reflexivity.
Qed.

Lemma forget_unfold (n : Node.t) :
  forget n
  = Node.mk (Node.name n) (Node.level n)
            (map (fun e => (forget (fst e), Node.mkInfo (Node.count (snd e)) None))
                 (Node.children n))
            (Node.has_children n).
Proof. destruct n; reflexivity. Qed.

Lemma evaluate_forget (n : Node.t) :
  forall n', PST.evaluate_node_probability n = Ok n' -> forget n' = forget n.
Proof.
  induction n as [nm lv ch hc IH] using Node_induction. intros n' H.
  apply evaluate_cases in H. simpl in H.
  destruct H as [[_ ->] | (_ & _ & ch' & -> & Hall)]; [reflexivity|].
  rewrite !forget_unfold. simpl. f_equal. symmetry.
  apply (Forall2_Forall_map_eq _ _ _ _ _ _ Hall IH).
  intros e e' IHe [Hrec Hinfo]. rewrite (IHe _ Hrec), Hinfo. reflexivity.
Qed.

Lemma evaluate_children_again (s : Z) (l l' : list (Node.t * Node.info)) :
  s <> 0 ->
  Forall2 (evaluated_entry PST.evaluate_node_probability s) l l' ->
  Forall (fun e => forall n', PST.evaluate_node_probability (fst e) = Ok n' ->
                              PST.evaluate_node_probability n' = Ok n') l ->
  PST.evaluate_children PST.evaluate_node_probability s l' = Ok l'.
Proof.
  intros Hs Hall. induction Hall as [|e e' rest rest' [Hrec Hinfo] _ IH]; intros HP.
  - reflexivity.
  - destruct e' as [c' i']. simpl in *. subst i'. simpl.
    unfold PST.true_div. destruct (Z.eqb_spec s 0) as [|_]; [contradiction|]. simpl.
    rewrite (Forall_inv HP _ Hrec). simpl.
    rewrite (IH (Forall_inv_tail HP)). reflexivity.
Qed.

Lemma evaluate_idempotent (n : Node.t) :
  forall n', PST.evaluate_node_probability n = Ok n' ->
             PST.evaluate_node_probability n' = Ok n'.
Proof.
  induction n as [nm lv ch hc IH] using Node_induction. intros n' H.
  pose proof H as Hcases. apply evaluate_cases in Hcases. simpl in Hcases.
  destruct Hcases as [[_ ->] | (Hne & Hs & ch' & -> & Hall)]; [exact H|].
  destruct (evaluate_counts (Node.mk nm lv ch hc) ch' _ Hall) as (_ & Hcnt & Hlen).
  simpl in Hcnt, Hlen.
  rewrite evaluate_unfold. simpl.
  replace (len ch' =? 0) with false.
  - rewrite (cnt_sum_infos _ _ Hcnt).
    rewrite (evaluate_children_again _ _ _ Hs Hall IH). reflexivity.
  - symmetry. apply Z.eqb_neq. unfold len. rewrite Hlen.
    destruct ch; [congruence | simpl; lia].
Qed.

(** X2. The evaluation pass changes nothing but the probabilities: it
    keeps the label, the depth and the power of the tree and, the keys 'p'
    set aside, every node with its label, level, flag and counts. *)
Theorem evaluate_keeps_counts (t t' : PST.t) :
  PST.evaluate_probability t = Ok t' ->
  forget (PST.root t') = forget (PST.root t) /\
  PST.name t' = PST.name t /\ PST.depth t' = PST.depth t /\ PST.power t' = PST.power t.
Proof.
  unfold PST.evaluate_probability. intros H.
  apply bind_Ok in H. destruct H as (root' & Hroot & H). injection H as <-. simpl.
  split; [exact (evaluate_forget _ _ Hroot) | repeat split].
Qed.

Lemma evaluate_keeps_counts_witness :
  PST.evaluate_probability scenario_counted_tree = Ok scenario_tree_A /\
  forget (PST.root scenario_tree_A) = forget (PST.root scenario_counted_tree).
Proof.
  split; [reflexivity|].
  exact (proj1 (evaluate_keeps_counts scenario_counted_tree scenario_tree_A eq_refl)).
Defined.

(** X3. The evaluation pass is idempotent: run again on its own result, it
    succeeds and returns that result unchanged. *)
Theorem evaluate_probability_idempotent (t t' : PST.t) :
  PST.evaluate_probability t = Ok t' -> PST.evaluate_probability t' = Ok t'.
Proof.
  unfold PST.evaluate_probability. intros H.
  apply bind_Ok in H. destruct H as (root' & Hroot & H). injection H as <-. simpl.
  rewrite (evaluate_idempotent _ _ Hroot). reflexivity.
Qed.

Lemma evaluate_probability_idempotent_witness :
  PST.evaluate_probability scenario_counted_tree = Ok scenario_tree_A /\
  PST.evaluate_probability scenario_tree_A = Ok scenario_tree_A.
Proof.
  split; [reflexivity|].
  exact (evaluate_probability_idempotent scenario_counted_tree scenario_tree_A eq_refl).
Defined.

(** ** What the counts count *)

Lemma lookups_split (pre post : list (Node.t * Node.info)) (c c' : Node.t)
  (i i' : Node.info) (x e : label) :
  existsb (String.eqb x) (labels pre) = false ->
  Node.name c = x -> Node.name c' = x ->
  Node.scan (pre ++ (c', i') :: post) e
  = (if String.eqb e x then Some c' else Node.scan (pre ++ (c, i) :: post) e) /\
  Node.getitem (pre ++ (c', i') :: post) e
  = (if String.eqb e x then Ok i' else Node.getitem (pre ++ (c, i) :: post) e).
Proof.
  intros Hpre Hc Hc'. induction pre as [|[c0 i0] pre IH]; simpl in *.
  - rewrite Hc, Hc', (String.eqb_sym x e).
    destruct (String.eqb e x); split; reflexivity.
  - apply orb_false_elim in Hpre. destruct Hpre as [Hne Hpre].
    destruct (IH Hpre) as [IH1 IH2].
    destruct (String.eqb_spec (Node.name c0) e) as [Heq|_].
    + subst e. rewrite String.eqb_sym, Hne. split; reflexivity.
    + split; assumption.
Qed.

Lemma lookups_fresh (l : list (Node.t * Node.info)) (c' : Node.t) (i' : Node.info)
  (x e : label) :
  Node.scan l x = None -> Node.name c' = x ->
  Node.scan (l ++ [(c', i')]) e = (if String.eqb e x then Some c' else Node.scan l e) /\
  Node.getitem (l ++ [(c', i')]) e = (if String.eqb e x then Ok i' else Node.getitem l e).
Proof.
  intros Hscan Hc'. induction l as [|[c0 i0] l IH]; simpl in *.
  - rewrite Hc', (String.eqb_sym x e). destruct (String.eqb e x); split; reflexivity.
  - destruct (String.eqb_spec (Node.name c0) x) as [|Hne]; [discriminate|].
    destruct (IH Hscan) as [IH1 IH2].
    destruct (String.eqb_spec (Node.name c0) e) as [Heq|_].
    + subst e. apply String.eqb_neq in Hne. rewrite Hne. split; reflexivity.
    + split; assumption.
Qed.

Lemma scan_None_getitem (l : list (Node.t * Node.info)) (x : label) :
  Node.scan l x = None -> Node.getitem l x = Raise KeyError.
Proof.
  induction l as [|[c0 i0] l IH]; simpl; [reflexivity|].
  destruct (String.eqb (Node.name c0) x); [discriminate | exact IH].
Qed.

Lemma child_absorb (n : Node.t) (x e : label) (xs : list label) :
  Node.get_child_by_name (PST.absorb n (x :: xs)) e
  = if String.eqb e x
    then Some (PST.absorb (match Node.get_child_by_name n x with
                           | Some child => child
                           | None => Node.init (Some n) x
                           end) xs)
    else Node.get_child_by_name n e.
Proof.
  unfold Node.get_child_by_name.
  destruct (Node.scan (Node.children n) x) as [child|] eqn:Hscan.
  - destruct (absorb_found n child x xs Hscan) as (pre & i & post & Hsplit & Hpre & ->).
    destruct (scan_Some _ _ _ Hscan) as [Hname _]. simpl. rewrite Hsplit.
    apply (lookups_split pre post child _ i _ x e Hpre Hname).
    rewrite name_absorb. exact Hname.
  - rewrite (absorb_fresh n x xs Hscan). simpl.
    apply (lookups_fresh _ _ _ x e Hscan). rewrite name_absorb. reflexivity.
Qed.

Lemma edge_count_absorb (n : Node.t) (x e : label) (xs : list label) :
  edge_count (PST.absorb n (x :: xs)) e
  = edge_count n e + (if String.eqb e x then 1 else 0).
Proof.
  unfold edge_count.
  destruct (Node.scan (Node.children n) x) as [child|] eqn:Hscan.
  - destruct (absorb_found n child x xs Hscan) as (pre & i & post & Hsplit & Hpre & ->).
    destruct (scan_Some _ _ _ Hscan) as [Hname _]. simpl. rewrite Hsplit.
    assert (Hchild' : Node.name (PST.absorb child xs) = x)
      by (rewrite name_absorb; exact Hname).
    destruct (lookups_split pre post child (PST.absorb child xs) i
                (Node.mkInfo (Node.count i + 1) (Node.p i)) x e Hpre Hname Hchild')
      as [_ ->].
    destruct (lookups_split pre post child child i i x e Hpre Hname Hname) as [_ Hold].
    destruct (String.eqb e x); [rewrite Hold; reflexivity | lia].
  - rewrite (absorb_fresh n x xs Hscan). simpl.
    assert (Hchild' : Node.name (PST.absorb (Node.init (Some n) x) xs) = x)
      by (rewrite name_absorb; reflexivity).
    destruct (lookups_fresh (Node.children n) _ (Node.mkInfo 1 None) x e Hscan Hchild')
      as [_ ->].
    destruct (String.eqb_spec e x) as [->|_]; [|lia].
    rewrite (scan_None_getitem _ _ Hscan). reflexivity.
Qed.

Lemma path_count_leaf (n : Node.t) (path : list label) :
  Node.children n = [] -> path_count n path = 0.
Proof.
  intros Hleaf. destruct path as [|e [|e2 rest]]; simpl; [reflexivity| |].
  - unfold edge_count. rewrite Hleaf. reflexivity.
  - unfold Node.get_child_by_name. rewrite Hleaf. reflexivity.
Qed.

Lemma path_count_step (n : Node.t) (e e2 : label) (rest : list label) :
  path_count n (e :: e2 :: rest)
  = match Node.get_child_by_name n e with
    | Some child => path_count child (e2 :: rest)
    | None => 0
    end.
Proof. reflexivity. Qed.

Lemma is_prefix_cons (a b : label) (q l : list label) :
  is_prefix (a :: q) (b :: l) = String.eqb a b && is_prefix q l.
Proof. reflexivity. Qed.

Lemma path_count_absorb (path : list label) :
  forall n elems,
    path <> [] ->
    path_count (PST.absorb n elems) path
    = path_count n path + (if is_prefix path elems then 1 else 0).
Proof.
  induction path as [|e rest IH]; intros n elems Hne; [congruence|].
  destruct elems as [|x xs]; [cbn [is_prefix PST.absorb]; cbv iota; lia|].
  rewrite is_prefix_cons.
  destruct rest as [|e2 rest].
  - cbn [path_count is_prefix]. rewrite edge_count_absorb, andb_true_r. reflexivity.
  - rewrite !path_count_step, child_absorb.
    destruct (String.eqb_spec e x) as [->|_]; cbv iota; [|simpl andb; cbv iota; lia].
    rewrite IH by discriminate. simpl andb.
    destruct (Node.get_child_by_name n x) as [child|]; [reflexivity|].
    rewrite path_count_leaf by reflexivity. reflexivity.
Qed.

Lemma tree_count_add_subchain (t : PST.t) (subchain path : list label) :
  tree_count (PST.add_subchain t subchain) path
  = tree_count t path + (if is_prefix path (tl subchain) then 1 else 0).
Proof.
  destruct path as [|e rest]; [reflexivity|].
  unfold tree_count, PST.add_subchain. cbn [PST.root].
  apply path_count_absorb. discriminate.
Qed.

Lemma tree_count_init (chain : list label) (t : PST.t) (path : list label) :
  PST.init chain = Ok t ->
  tree_count t path = if is_prefix path (tl chain) then 1 else 0.
Proof.
  intros Hinit. destruct (init_root _ _ Hinit) as (first & rest & -> & Hroot & _ & _ & Hpower).
  destruct path as [|e path]; [simpl; lia|].
  unfold tree_count. cbn [tl].
  rewrite Hroot, path_count_absorb by discriminate.
  rewrite path_count_leaf by reflexivity. reflexivity.
Qed.

Lemma name_forget (n : Node.t) : Node.name (forget n) = Node.name n.
Proof. destruct n; reflexivity. Qed.

Lemma lookups_forget (l : list (Node.t * Node.info)) (e : label) :
  Node.scan (map (fun x => (forget (fst x), Node.mkInfo (Node.count (snd x)) None)) l) e
  = option_map forget (Node.scan l e) /\
  match Node.getitem (map (fun x => (forget (fst x), Node.mkInfo (Node.count (snd x)) None)) l) e,
        Node.getitem l e with
  | Ok i', Ok i => Node.count i' = Node.count i
  | Raise _, Raise _ => True
  | _, _ => False
  end.
Proof.
  induction l as [|[c0 i0] l [IH1 IH2]]; simpl; [split; [reflexivity | exact I]|].
  rewrite name_forget.
  destruct (String.eqb (Node.name c0) e); [split; reflexivity | split; assumption].
Qed.

Lemma path_count_forget (path : list label) :
  forall n, path_count (forget n) path = path_count n path.
Proof.
  induction path as [|e rest IH]; intros n; [reflexivity|].
  destruct (lookups_forget (Node.children n) e) as [Hscan Hget].
  rewrite forget_unfold.
  destruct rest as [|e2 rest]; cbn [path_count].
  - unfold edge_count. simpl.
    destruct (Node.getitem (map _ (Node.children n)) e), (Node.getitem (Node.children n) e);
      try contradiction; [exact Hget | reflexivity].
  - unfold Node.get_child_by_name. simpl. rewrite Hscan.
    destruct (Node.scan (Node.children n) e) as [child|]; simpl; [apply IH | reflexivity].
Qed.

Lemma tree_count_evaluate (t t' : PST.t) (path : list label) :
  PST.evaluate_probability t = Ok t' -> tree_count t' path = tree_count t path.
Proof.
  unfold PST.evaluate_probability. intros H.
  apply bind_Ok in H. destruct H as (root' & Hroot & H). injection H as <-.
  destruct path as [|e rest]; [reflexivity|].
  unfold tree_count. cbn [PST.root].
  rewrite <- (path_count_forget _ root'), (evaluate_forget _ _ Hroot).
  apply path_count_forget.
Qed.

Lemma find_absorb_into (l : list PST.t) (first a : label) (subchain : list label) :
  PST_model.find_tree (PST_model.absorb_into l first subchain) a
  = if String.eqb a first
    then option_map (fun t => PST.add_subchain t subchain) (PST_model.find_tree l first)
    else PST_model.find_tree l a.
Proof.
  induction l as [|t0 l IH]; simpl.
  - destruct (String.eqb a first); reflexivity.
  - destruct (String.eqb_spec (PST.name t0) first) as [Hfirst|Hfirst]; simpl.
    + rewrite Hfirst, (String.eqb_sym first a).
      destruct (String.eqb a first); reflexivity.
    + rewrite IH. destruct (String.eqb_spec (PST.name t0) a) as [Ha|_]; [|reflexivity].
      destruct (String.eqb_spec a first) as [Hsame|_]; [congruence | reflexivity].
Qed.

Lemma find_app_new (l : list PST.t) (new_pst : PST.t) (a : label) :
  PST_model.find_tree (l ++ [new_pst]) a
  = match PST_model.find_tree l a with
    | Some t => Some t
    | None => if String.eqb (PST.name new_pst) a then Some new_pst else None
    end.
Proof.
  induction l as [|t0 l IH]; simpl; [reflexivity|].
  destruct (String.eqb (PST.name t0) a); [reflexivity | exact IH].
Qed.

Lemma fit_step_count (m m' : PST_model.t) (subchain q : list label) :
  PST_model.fit_step m subchain = Ok m' -> q <> [] ->
  model_count m' q = model_count m q + (if is_prefix q subchain then 1 else 0).
Proof.
  intros Hstep Hq. destruct q as [|a path]; [congruence|].
  unfold PST_model.fit_step in Hstep.
  destruct subchain as [|first rest]; [discriminate|].
  rewrite is_prefix_cons. unfold model_count, PST_model.get_PST_by_name in *.
  destruct (PST_model.find_tree (PST_model.trees m) first) as [t|] eqn:Hfind.
  - injection Hstep as <-. simpl PST_model.trees. rewrite find_absorb_into.
    destruct (String.eqb_spec a first) as [->|_]; [|simpl; lia].
    rewrite Hfind. simpl option_map. simpl andb.
    apply tree_count_add_subchain.
  - apply bind_Ok in Hstep. destruct Hstep as (new_pst & Hinit & Hstep).
    injection Hstep as <-. simpl PST_model.trees. rewrite find_app_new.
    destruct (init_root _ _ Hinit) as (f & r & Hchain & _ & Hname & _).
    injection Hchain as <- <-. rewrite Hname, (String.eqb_sym first a).
    destruct (String.eqb_spec a first) as [->|_].
    + rewrite Hfind. simpl andb. rewrite (tree_count_init _ _ path Hinit). simpl tl. lia.
    + simpl andb. destruct (PST_model.find_tree (PST_model.trees m) a); lia.
Qed.

Lemma starting_with_cons (q w : list label) (ws : list (list label)) :
  starting_with q (w :: ws) = (if is_prefix q w then 1 else 0) + starting_with q ws.
Proof.
  unfold starting_with, len. simpl. destruct (is_prefix q w); simpl length; lia.
Qed.

Lemma fit_loop_count (ws : list (list label)) (q : list label) :
  forall m m', PST_model.fit_loop m ws = Ok m' -> q <> [] ->
               model_count m' q = model_count m q + starting_with q ws.
Proof.
  induction ws as [|w ws IH]; simpl; intros m m' Hloop Hq.
  - injection Hloop as <-. unfold starting_with, len. simpl. lia.
  - apply bind_Ok in Hloop. destruct Hloop as (m1 & Hstep & Hloop).
    rewrite (IH _ _ Hloop Hq), (fit_step_count _ _ _ _ Hstep Hq), starting_with_cons. lia.
Qed.

Lemma find_evaluated_trees (l l' : list PST.t) (a : label) :
  mapM PST.evaluate_probability l = Ok l' ->
  match PST_model.find_tree l a with
  | Some t => exists t', PST.evaluate_probability t = Ok t' /\
                         PST_model.find_tree l' a = Some t'
  | None => PST_model.find_tree l' a = None
  end.
Proof.
  revert l'. induction l as [|t0 l IH]; simpl; intros l' H.
  - injection H as <-. reflexivity.
  - apply bind_Ok in H. destruct H as (t0' & Ht0 & H).
    apply bind_Ok in H. destruct H as (rest' & Hrest & H). injection H as <-.
    pose proof Ht0 as Hname. unfold PST.evaluate_probability in Hname.
    apply bind_Ok in Hname. destruct Hname as (root' & _ & Hname).
    injection Hname as Hname. simpl.
    replace (PST.name t0') with (PST.name t0) by (rewrite <- Hname; reflexivity).
    destruct (String.eqb (PST.name t0) a).
    + exists t0'. split; [exact Ht0 | reflexivity].
    + exact (IH _ Hrest).
Qed.

Lemma evaluate_trees_count (m m' : PST_model.t) (q : list label) :
  PST_model.evaluate_trees m = Ok m' -> model_count m' q = model_count m q.
Proof.
  unfold PST_model.evaluate_trees. intros H.
  apply bind_Ok in H. destruct H as (trees' & Htrees & H). injection H as <-.
  destruct q as [|a path]; [reflexivity|].
  unfold model_count, PST_model.get_PST_by_name. simpl PST_model.trees.
  pose proof (find_evaluated_trees _ _ a Htrees) as Hfind.
  destruct (PST_model.find_tree (PST_model.trees m) a) as [t|].
  - destruct Hfind as (t' & Heval & ->). exact (tree_count_evaluate _ _ _ Heval).
  - rewrite Hfind. reflexivity.
Qed.

(** X4. What training counts.  After [fit], for every non-empty sequence
    [q] of labels, the count that the model holds for [q] (the count on the
    last edge of the path [q], or the number of chains given to the tree of
    [q]'s only label) is the count it held before plus the number of windows
    of the training sequence that begin with [q]. *)
Theorem fit_counts_windows (m m' : PST_model.t) (chain q : list label) :
  PST_model.fit m chain = Ok m' -> q <> [] ->
  model_count m' q = model_count m q + starting_with q (PST_model._get_subchains m chain).
Proof.
  unfold PST_model.fit, PST_model.fit_subchains. intros H Hq.
  apply bind_Ok in H. destruct H as (m1 & Hloop & Heval).
  rewrite (evaluate_trees_count _ _ q Heval). exact (fit_loop_count _ _ _ _ Hloop Hq).
Qed.

Lemma fit_counts_windows_witness :
  PST_model.fit (PST_model.init 3) scenario_chain = Ok chain_fitted /\
  ["A"; "B"]%string <> [] /\
  model_count chain_fitted ["A"; "B"]%string = 3.
Proof.
  assert (Hq : ["A"; "B"]%string <> []) by discriminate.
  split; [reflexivity|]. split; [exact Hq|].
  exact (fit_counts_windows (PST_model.init 3) chain_fitted scenario_chain
           ["A"; "B"]%string eq_refl Hq).
Defined.

(** ** Chains of one length *)

Lemma cnt_sum_app (l l' : list (Node.t * Node.info)) :
  PST.cnt_sum (l ++ l') = PST.cnt_sum l + PST.cnt_sum l'.
Proof.
  induction l as [|e l IH]; simpl.
  - change (PST.cnt_sum []) with 0. lia.
  - rewrite !cnt_sum_cons, IH. lia.
Qed.

Lemma flow_leaf (h : nat) (n : Node.t) : Node.children n = [] -> flow h 0 n.
Proof.
  intros Hleaf. destruct h as [|h]; simpl; [exact Hleaf|].
  rewrite Hleaf. split; [reflexivity | constructor].
Qed.

Lemma flow_absorb (elems : list label) :
  forall h c n, length elems = h -> flow h c n -> flow h (c + 1) (PST.absorb n elems).
Proof.
  induction elems as [|x xs IH]; intros h c n Hlen Hflow; subst h; [exact Hflow|].
  simpl length in *. cbn [flow] in *. destruct Hflow as [Hsum Hall].
  destruct (Node.scan (Node.children n) x) as [child|] eqn:Hscan.
  - destruct (absorb_found n child x xs Hscan) as (pre & i & post & Hsplit & _ & ->).
    simpl Node.children. rewrite Hsplit in Hsum, Hall.
    rewrite cnt_sum_app, cnt_sum_cons in *. simpl in *.
    apply Forall_app in Hall. destruct Hall as [Hpre Hpost].
    split; [lia|]. apply Forall_app. split; [exact Hpre|].
    constructor; [|exact (Forall_inv_tail Hpost)].
    simpl. apply IH; [reflexivity | exact (Forall_inv Hpost)].
  - rewrite (absorb_fresh n x xs Hscan). simpl Node.children.
    rewrite cnt_sum_app, cnt_sum_cons. simpl.
    change (PST.cnt_sum []) with 0. split; [lia|].
    apply Forall_app. split; [exact Hall|]. constructor; [|constructor].
    simpl. apply (IH _ 0); [reflexivity | apply flow_leaf; reflexivity].
Qed.

Lemma flow_forget (h : nat) :
  forall c n, flow h c (forget n) <-> flow h c n.
Proof.
  induction h as [|h IH]; intros c n; rewrite forget_unfold; simpl.
  - destruct (Node.children n); simpl; split; intros H; try reflexivity; discriminate.
  - rewrite Forall_map. simpl.
    rewrite (cnt_sum_infos (map _ (Node.children n)) (Node.children n))
      by (rewrite map_map; reflexivity).
    split; intros [Hsum Hall]; (split; [exact Hsum|]);
      revert Hall; apply Forall_impl; intros e; apply IH.
Qed.

Lemma flow_evaluate (h : nat) (c : Z) (n n' : Node.t) :
  PST.evaluate_node_probability n = Ok n' -> flow h c n -> flow h c n'.
Proof.
  intros Heval Hflow. apply flow_forget. rewrite (evaluate_forget _ _ Heval).
  apply flow_forget. exact Hflow.
Qed.

Lemma built_power (t : PST.t) : built t -> 0 <= PST.power t.
Proof.
  induction 1 as [chain t Hinit | t subchain _ IH | t t' _ IH Heval].
  - destruct (init_root _ _ Hinit) as (first & rest & _ & _ & _ & _ & ->). lia.
  - simpl. lia.
  - unfold PST.evaluate_probability in Heval.
    apply bind_Ok in Heval. destruct Heval as (root' & _ & Heval).
    injection Heval as <-. exact IH.
Qed.

Lemma tree_counted_init (chain : list label) (t : PST.t) :
  PST.init chain = Ok t -> tree_counted (len chain) t.
Proof.
  intros Hinit. pose proof (built_init _ _ Hinit) as Hb.
  destruct (init_root _ _ Hinit) as (first & rest & -> & Hroot & Hname & Hdepth & Hpower).
  split; [exact Hb|]. split; [rewrite Hroot, name_absorb; exact Hname|].
  split; [exact Hdepth|]. split; [lia|].
  rewrite Hroot, Hpower. apply (flow_absorb rest _ 0); [|apply flow_leaf; reflexivity].
  unfold len. simpl length. lia.
Qed.

Lemma tree_counted_add (d : Z) (t : PST.t) (subchain : list label) :
  1 <= d -> len subchain = d -> tree_counted d t ->
  tree_counted d (PST.add_subchain t subchain).
Proof.
  intros Hd Hlen (Hb & Hname & Hdepth & Hpower & Hflow).
  split; [exact (built_add _ _ Hb)|].
  unfold PST.add_subchain. cbn [PST.root PST.name PST.depth PST.power].
  split; [rewrite name_absorb; exact Hname|]. split; [exact Hdepth|]. split; [lia|].
  apply flow_absorb; [|exact Hflow].
  unfold len in Hlen. destruct subchain; simpl in *; lia.
Qed.

Lemma tree_counted_evaluate (d : Z) (t t' : PST.t) :
  PST.evaluate_probability t = Ok t' -> tree_counted d t -> tree_counted d t'.
Proof.
  intros Heval (Hb & Hname & Hdepth & Hpower & Hflow).
  pose proof (built_eval _ _ Hb Heval) as Hb'.
  unfold PST.evaluate_probability in Heval.
  apply bind_Ok in Heval. destruct Heval as (root' & Hroot & Heval).
  injection Heval as <-.
  unfold tree_counted. cbn [PST.root PST.name PST.depth PST.power].
  split; [exact Hb'|]. split; [rewrite (evaluate_name _ _ Hroot); exact Hname|].
  split; [exact Hdepth|]. split; [exact Hpower|].
  exact (flow_evaluate _ _ _ _ Hroot Hflow).
Qed.

(** ** The windows of a sequence *)

Lemma windows_length (m : PST_model.t) (chain w : list label) :
  0 <= PST_model._depth m -> In w (PST_model._get_subchains m chain) ->
  len w = PST_model._depth m.
Proof.
  unfold PST_model._get_subchains. intros Hd Hin.
  apply in_map_iff in Hin. destruct Hin as (i & <- & Hi).
  apply py_range_In in Hi.
  apply (py_slice_inside chain i (PST_model._depth m)); lia.
Qed.

(** ** The invariant of fitted models *)

Lemma names_absorb_into (l : list PST.t) (first : label) (subchain : list label) :
  tree_names (PST_model.absorb_into l first subchain) = tree_names l.
Proof.
  unfold tree_names. induction l as [|t0 l IH]; simpl; [reflexivity|].
  destruct (String.eqb (PST.name t0) first); simpl; [reflexivity | f_equal; exact IH].
Qed.

Lemma counted_absorb_into (d : Z) (l : list PST.t) (first : label) (subchain : list label) :
  1 <= d -> len subchain = d -> Forall (tree_counted d) l ->
  Forall (tree_counted d) (PST_model.absorb_into l first subchain).
Proof.
  intros Hd Hlen. induction 1 as [|t0 l Ht0 Hl IH]; simpl; [constructor|].
  destruct (String.eqb (PST.name t0) first); constructor; try assumption.
  exact (tree_counted_add d t0 subchain Hd Hlen Ht0).
Qed.

Lemma find_tree_None (l : list PST.t) (a : label) :
  PST_model.find_tree l a = None <-> existsb (String.eqb a) (tree_names l) = false.
Proof.
  unfold tree_names. induction l as [|t0 l IH]; simpl; [tauto|].
  rewrite (String.eqb_sym a).
  destruct (String.eqb (PST.name t0) a); simpl; [split; discriminate | exact IH].
Qed.

Lemma fit_step_counted (m m' : PST_model.t) (subchain : list label) :
  len subchain = PST_model._depth m ->
  Forall (tree_counted (PST_model._depth m)) (PST_model.trees m) ->
  distinctb (tree_names (PST_model.trees m)) = true ->
  PST_model.fit_step m subchain = Ok m' ->
  PST_model._depth m' = PST_model._depth m /\
  Forall (tree_counted (PST_model._depth m)) (PST_model.trees m') /\
  distinctb (tree_names (PST_model.trees m')) = true.
Proof.
  intros Hlen Hall Hnames Hstep. unfold PST_model.fit_step in Hstep.
  destruct subchain as [|first rest]; [discriminate|].
  assert (Hd : 1 <= PST_model._depth m) by (rewrite <- Hlen; unfold len; simpl length; lia).
  unfold PST_model.get_PST_by_name in Hstep.
  destruct (PST_model.find_tree (PST_model.trees m) first) as [t|] eqn:Hfind.
  - injection Hstep as <-. simpl. split; [reflexivity|]. split.
    + exact (counted_absorb_into _ _ _ _ Hd Hlen Hall).
    + rewrite names_absorb_into. exact Hnames.
  - apply bind_Ok in Hstep. destruct Hstep as (new_pst & Hinit & Hstep).
    injection Hstep as <-. simpl. split; [reflexivity|]. split.
    + apply Forall_app. split; [exact Hall|]. constructor; [|constructor].
      rewrite <- Hlen. exact (tree_counted_init _ _ Hinit).
    + unfold tree_names. rewrite map_app. simpl.
      destruct (init_root _ _ Hinit) as (f & r & Hchain & _ & -> & _).
      injection Hchain as <- <-.
      apply distinctb_app_fresh; [exact Hnames | apply find_tree_None; exact Hfind].
Qed.

Lemma fit_loop_counted (ws : list (list label)) :
  forall m m',
    Forall (fun w => len w = PST_model._depth m) ws ->
    Forall (tree_counted (PST_model._depth m)) (PST_model.trees m) ->
    distinctb (tree_names (PST_model.trees m)) = true ->
    PST_model.fit_loop m ws = Ok m' ->
    PST_model._depth m' = PST_model._depth m /\
    Forall (tree_counted (PST_model._depth m)) (PST_model.trees m') /\
    distinctb (tree_names (PST_model.trees m')) = true.
Proof.
  induction ws as [|w ws IH]; simpl; intros m m' Hws Hall Hnames Hloop.
  - injection Hloop as <-. repeat split; assumption.
  - apply bind_Ok in Hloop. destruct Hloop as (m1 & Hstep & Hloop).
    destruct (fit_step_counted _ _ _ (Forall_inv Hws) Hall Hnames Hstep)
      as (Hd1 & Hall1 & Hnames1).
    rewrite <- Hd1 in *.
    exact (IH _ _ (Forall_inv_tail Hws) Hall1 Hnames1 Hloop).
Qed.

Lemma evaluate_trees_counted (d : Z) (l l' : list PST.t) :
  mapM PST.evaluate_probability l = Ok l' ->
  Forall (tree_counted d) l ->
  Forall (fun t => tree_counted d t /\ PST.evaluate_probability t = Ok t) l' /\
  tree_names l' = tree_names l.
Proof.
  revert l'. induction l as [|t0 l IH]; simpl; intros l' H Hall.
  - injection H as <-. split; [constructor | reflexivity].
  - apply bind_Ok in H. destruct H as (t0' & Ht0 & H).
    apply bind_Ok in H. destruct H as (rest' & Hrest & H). injection H as <-.
    destruct (IH _ Hrest (Forall_inv_tail Hall)) as [IH1 IH2].
    split.
    + constructor; [|exact IH1]. split.
      * exact (tree_counted_evaluate _ _ _ Ht0 (Forall_inv Hall)).
      * unfold PST.evaluate_probability in *.
        apply bind_Ok in Ht0. destruct Ht0 as (root' & Hroot & Ht0).
        injection Ht0 as <-. simpl. rewrite (evaluate_idempotent _ _ Hroot). reflexivity.
    + simpl. rewrite IH2. f_equal.
      unfold PST.evaluate_probability in Ht0.
      apply bind_Ok in Ht0. destruct Ht0 as (root' & _ & Ht0).
      injection Ht0 as <-. reflexivity.
Qed.

Lemma fit_loop_depth (ws : list (list label)) :
  forall m m', PST_model.fit_loop m ws = Ok m' ->
               PST_model._depth m' = PST_model._depth m.
Proof.
  induction ws as [|w ws IH]; simpl; intros m m' Hloop.
  - injection Hloop as <-. reflexivity.
  - apply bind_Ok in Hloop. destruct Hloop as (m2 & Hstep & Hloop).
    rewrite (IH _ _ Hloop). unfold PST_model.fit_step in Hstep.
    destruct w as [|first rest]; [discriminate|].
    destruct (PST_model.get_PST_by_name m first).
    + injection Hstep as <-. reflexivity.
    + apply bind_Ok in Hstep. destruct Hstep as (new_pst & _ & Hstep).
      injection Hstep as <-. reflexivity.
Qed.

Lemma fit_depth (m m' : PST_model.t) (chain : list label) :
  PST_model.fit m chain = Ok m' -> PST_model._depth m' = PST_model._depth m.
Proof.
  unfold PST_model.fit, PST_model.fit_subchains, PST_model.evaluate_trees. intros H.
  apply bind_Ok in H. destruct H as (m1 & Hloop & H).
  apply bind_Ok in H. destruct H as (trees' & _ & H). injection H as <-. simpl.
  exact (fit_loop_depth _ _ _ Hloop).
Qed.

Lemma fitted_invariant (m : PST_model.t) :
  fitted m -> 0 <= PST_model._depth m ->
  Forall (fun t => tree_counted (PST_model._depth m) t /\ PST.evaluate_probability t = Ok t)
         (PST_model.trees m) /\
  distinctb (tree_names (PST_model.trees m)) = true.
Proof.
  induction 1 as [depth | m chain m' _ IH Hfit]; intros Hd.
  - simpl. split; [constructor | reflexivity].
  - pose proof (fit_depth _ _ _ Hfit) as Hdepth. rewrite Hdepth in *.
    destruct (IH Hd) as [Hall Hnames].
    unfold PST_model.fit, PST_model.fit_subchains in Hfit.
    apply bind_Ok in Hfit. destruct Hfit as (m1 & Hloop & Heval).
    destruct (fit_loop_counted (PST_model._get_subchains m chain) m m1)
      as (Hd1 & Hall1 & Hnames1); try assumption.
    + apply Forall_forall. intros w Hw. exact (windows_length m chain w Hd Hw).
    + revert Hall. apply Forall_impl. tauto.
    + unfold PST_model.evaluate_trees in Heval.
      apply bind_Ok in Heval. destruct Heval as (trees' & Htrees & Heval).
      injection Heval as <-. simpl.
      destruct (evaluate_trees_counted _ _ _ Htrees Hall1) as [Hall' Hnames'].
      split; [exact Hall' | rewrite Hnames'; exact Hnames1].
Qed.

Lemma distinct_find_tree (l : list PST.t) (t : PST.t) :
  distinctb (tree_names l) = true -> In t l ->
  PST_model.find_tree l (PST.name t) = Some t.
Proof.
  unfold tree_names. induction l as [|t0 l IH]; simpl; intros Hd Hin; [contradiction|].
  apply andb_prop in Hd. destruct Hd as [Hfresh Hrest].
  apply negb_true_iff in Hfresh.
  destruct Hin as [->|Hin]; [rewrite String.eqb_refl; reflexivity|].
  destruct (String.eqb_spec (PST.name t0) (PST.name t)) as [Hsame|_]; [|exact (IH Hrest Hin)].
  assert (Hex : existsb (String.eqb (PST.name t0)) (map PST.name l) = true).
  { apply existsb_exists. exists (PST.name t). split.
    - apply in_map. exact Hin.
    - apply String.eqb_eq. exact Hsame. }
  congruence.
Qed.

Lemma chain_fitted_fitted : fitted chain_fitted.
Proof.
  exact (fitted_fit (PST_model.init 3) scenario_chain chain_fitted (fitted_init 3) eq_refl).
Defined.

(** X5. The trees of a fitted model of depth d >= 0: no two have the same
    label; each is the tree that [get_PST_by_name] finds for its label, is
    named after its root, has the depth of the model, and holds
    probabilities that a new evaluation pass would leave unchanged. *)
Theorem fitted_model_trees (m : PST_model.t) :
  fitted m -> 0 <= PST_model._depth m ->
  distinctb (tree_names (PST_model.trees m)) = true /\
  forall t, In t (PST_model.trees m) ->
            PST_model.get_PST_by_name m (PST.name t) = Some t /\
            PST.name t = Node.name (PST.root t) /\
            PST.depth t = PST_model._depth m /\
            PST.evaluate_probability t = Ok t.
Proof.
  intros Hfit Hd. destruct (fitted_invariant m Hfit Hd) as [Hall Hnames].
  split; [exact Hnames|]. intros t Hin.
  rewrite Forall_forall in Hall.
  destruct (Hall t Hin) as [(_ & Hname & Hdepth & _) Hup].
  split; [exact (distinct_find_tree _ _ Hnames Hin)|]. repeat split; assumption.
Qed.

Lemma fitted_model_trees_witness :
  fitted chain_fitted /\ 0 <= PST_model._depth chain_fitted /\
  distinctb (tree_names (PST_model.trees chain_fitted)) = true.
Proof.
  assert (Hd : 0 <= PST_model._depth chain_fitted) by (vm_compute; discriminate).
  split; [exact chain_fitted_fitted|]. split; [exact Hd|].
  exact (proj1 (fitted_model_trees chain_fitted chain_fitted_fitted Hd)).
Defined.




(** X7. With depth 0 every window is empty, and [fit] on a non-empty
    sequence raises IndexError when it reads the first element of the first
    window. *)
Theorem fit_depth_zero_raises (m : PST_model.t) (chain : list label) :
  PST_model._depth m = 0 -> chain <> [] ->
  PST_model.fit m chain = Raise IndexError.
Proof.
  intros Hd Hne. unfold PST_model.fit, PST_model.fit_subchains, PST_model._get_subchains.
  rewrite Hd. unfold py_range, len.
  destruct chain as [|x chain]; [congruence|].
  replace (Z.to_nat (Z.of_nat (length (x :: chain)) - 0)) with (S (length chain))
    by (simpl length; lia).
  reflexivity.
Qed.

Lemma fit_depth_zero_raises_witness :
  PST_model._depth (PST_model.init 0) = 0 /\ ["A"%string] <> [] /\
  PST_model.fit (PST_model.init 0) ["A"%string] = Raise IndexError.
Proof.
  assert (Hne : ["A"%string] <> []) by discriminate.
  split; [reflexivity|]. split; [exact Hne|].
  exact (fit_depth_zero_raises (PST_model.init 0) ["A"%string] eq_refl Hne).
Defined.

(** ** Probabilities as frequencies *)

Lemma count_le_sum (l : list (Node.t * Node.info)) (e : Node.t * Node.info) :
  forallb (fun x => 1 <=? Node.count (snd x)) l = true -> In e l ->
  1 <= Node.count (snd e) <= PST.cnt_sum l.
Proof.
  induction l as [|e0 l IH]; simpl; intros Hpos Hin; [contradiction|].
  apply andb_prop in Hpos. destruct Hpos as [H0 Hl]. apply Z.leb_le in H0.
  rewrite cnt_sum_cons.
  assert (Hsum : 0 <= PST.cnt_sum l).
  { destruct l as [|e1 l']; [change (PST.cnt_sum []) with 0; lia|].
    pose proof (cnt_sum_positive (e1 :: l') Hl ltac:(discriminate)). lia. }
  destruct Hin as [->|Hin]; [lia|]. specialize (IH Hl Hin). lia.
Qed.

Lemma path_count_bounds (path : list label) :
  forall h c n,
    flow h c n -> 0 <= c -> all_nodes counts_positive n = true ->
    0 <= path_count n path <= c.
Proof.
  induction path as [|e rest IH]; intros h c n Hflow Hc Hpos; [simpl; lia|].
  destruct h as [|h]; [rewrite path_count_leaf by exact Hflow; lia|].
  cbn [flow] in Hflow. destruct Hflow as [Hsum Hall].
  pose proof (all_nodes_here _ _ Hpos) as Hhere. unfold counts_positive in Hhere.
  destruct (Node.scan (Node.children n) e) as [child|] eqn:Hscan.
  - destruct (scan_Some _ _ _ Hscan) as (_ & i & Hget & Hin).
    pose proof (count_le_sum _ _ Hhere Hin) as Hle. simpl in Hle.
    destruct rest as [|e2 rest].
    + simpl. unfold edge_count. rewrite Hget. lia.
    + rewrite path_count_step. unfold Node.get_child_by_name. rewrite Hscan.
      rewrite Forall_forall in Hall. specialize (Hall _ Hin). simpl in Hall.
      pose proof (IH h _ child Hall ltac:(lia) (all_nodes_child _ _ _ _ Hpos Hin)). lia.
  - destruct rest as [|e2 rest].
    + simpl. unfold edge_count. rewrite (scan_None_getitem _ _ Hscan). lia.
    + rewrite path_count_step. unfold Node.get_child_by_name. rewrite Hscan. lia.
Qed.

Lemma inject_Z_nonzero (z : Z) : z <> 0 -> ~ (inject_Z z == 0)%Q.
Proof. intros Hz. unfold Qeq. simpl. lia. Qed.

Lemma walk_ratio (elems : list label) :
  forall h c n prob,
    length elems = h -> flow h c n -> 0 < c ->
    Forall (fun x => Node.children x <> [] ->
                     count_over_sum x /\ PST.cnt_sum (Node.children x) <> 0) (subnodes n) ->
    all_nodes counts_positive n = true ->
    exists q,
      PST_model.walk n prob elems = Ok (VNum q) /\
      (q * inject_Z c
       == prob * inject_Z (match elems with [] => c | _ :: _ => path_count n elems end))%Q.
Proof.
  induction elems as [|e rest IH]; intros h c n prob Hlen Hflow Hc Hratio Hpos.
  - exists prob. split; [reflexivity | apply Qeq_refl].
  - subst h. simpl length in Hflow. cbn [flow] in Hflow. destruct Hflow as [Hsum Hall].
    cbn [PST_model.walk]. unfold Node.get_child_by_name.
    destruct (Node.scan (Node.children n) e) as [child|] eqn:Hscan.
    + destruct (scan_Some _ _ _ Hscan) as (Hname & i & Hget & Hin).
      rewrite Hname, Hget. simpl bind.
      apply Forall_subnodes in Hratio. destruct Hratio as [Hhere Hsub].
      destruct Hhere as [Hcos _]; [intros He; rewrite He in Hin; contradiction|].
      unfold count_over_sum in Hcos. rewrite Forall_forall in Hcos, Hsub, Hall.
      pose proof (Hcos _ Hin) as Hp. simpl in Hp. rewrite Hsum in Hp.
      unfold Node.get_p. rewrite Hp. simpl bind.
      pose proof (count_le_sum _ _ (all_nodes_here _ _ Hpos) Hin) as Hle. simpl in Hle.
      destruct (IH _ (Node.count i) child
                  (prob * (inject_Z (Node.count i) / inject_Z c))%Q eq_refl
                  (Hall _ Hin) ltac:(lia) (Hsub _ Hin)
                  (all_nodes_child _ _ _ _ Hpos Hin)) as (q & Hwalk & Hq).
      exists q. split; [exact Hwalk|].
      assert (Hcount : match rest with
                       | [] => Node.count i
                       | _ :: _ => path_count child rest
                       end = path_count n (e :: rest)).
      { destruct rest as [|e2 rest].
        - simpl. unfold edge_count. rewrite Hget. reflexivity.
        - rewrite path_count_step. unfold Node.get_child_by_name. rewrite Hscan.
          reflexivity. }
      rewrite Hcount in Hq.
      apply (Qmult_inj_r _ _ (inject_Z (Node.count i)));
        [apply inject_Z_nonzero; lia|].
      setoid_replace (q * inject_Z c * inject_Z (Node.count i))%Q
        with (q * inject_Z (Node.count i) * inject_Z c)%Q by ring.
      rewrite Hq. field. apply inject_Z_nonzero. lia.
    + exists 0%Q. split; [reflexivity|].
      assert (Hzero : path_count n (e :: rest) = 0).
      { destruct rest as [|e2 rest].
        - simpl. unfold edge_count. rewrite (scan_None_getitem _ _ Hscan). reflexivity.
        - rewrite path_count_step. unfold Node.get_child_by_name. rewrite Hscan.
          reflexivity. }
      rewrite Hzero. ring.
Qed.

Lemma event_prob_ratio (m : PST_model.t) (first : label) (rest : list label) :
  fitted m -> 1 <= PST_model._depth m ->
  len (first :: rest) = PST_model._depth m ->
  exists q,
    PST_model.get_event_prob m (first :: rest) = Ok (VNum q) /\
    (q * inject_Z (model_count m [first]) == inject_Z (model_count m (first :: rest)))%Q /\
    0 <= model_count m (first :: rest) <= model_count m [first] /\
    (PST_model.get_PST_by_name m first <> None -> 0 < model_count m [first]).
Proof.
  intros Hfit Hd Hlen.
  destruct (fitted_invariant m Hfit ltac:(lia)) as [Hall _].
  unfold PST_model.get_event_prob. rewrite Hlen, Z.eqb_refl. simpl negb. cbv iota.
  unfold model_count.
  destruct (PST_model.get_PST_by_name m first) as [t|] eqn:Hfind.
  - pose proof Hfind as Hin. apply find_tree_In in Hin. destruct Hin as [Hin _].
    rewrite Forall_forall in Hall.
    destruct (Hall t Hin) as [(Hb & _ & _ & Hpower & Hflow) Hup].
    assert (Hpos : all_nodes counts_positive (PST.root t) = true).
    { apply (all_nodes_weaken node_ok); [exact node_ok_positive | exact (built_ok t Hb)]. }
    assert (Hratio : Forall (fun x => Node.children x <> [] ->
                              count_over_sum x /\ PST.cnt_sum (Node.children x) <> 0)
                            (subnodes (PST.root t))).
    { unfold PST.evaluate_probability in Hup.
      apply bind_Ok in Hup. destruct Hup as (root' & Hroot & Hup).
      injection Hup as Hup. pose proof (evaluate_count_over_sum _ _ Hroot) as H.
      replace root' with (PST.root t) in H by (rewrite <- Hup; reflexivity). exact H. }
    assert (Hrest : length rest = Z.to_nat (PST_model._depth m - 1)).
    { unfold len in Hlen. simpl length in Hlen. lia. }
    destruct (walk_ratio rest _ (PST.power t + 1) (PST.root t) 1%Q Hrest Hflow
                ltac:(lia) Hratio Hpos) as (q & Hwalk & Hq).
    exists q. split; [exact Hwalk|].
    assert (Htc : match rest with
                  | [] => PST.power t + 1
                  | _ :: _ => path_count (PST.root t) rest
                  end = tree_count t rest) by (destruct rest; reflexivity).
    rewrite Htc in Hq. split; [rewrite Hq; simpl tree_count; ring|].
    split; [|intros _; simpl; lia].
    simpl tree_count at 3. destruct rest as [|e rest']; [simpl; lia|].
    unfold tree_count.
    pose proof (path_count_bounds (e :: rest') _ _ _ Hflow ltac:(lia) Hpos). lia.
  - exists 0%Q. split; [reflexivity|]. split; [ring|]. split; [lia | congruence].
Qed.

Lemma inject_Z_positive (z : Z) : 0 < z -> (0 < inject_Z z)%Q.
Proof. intros Hz. unfold Qlt. simpl. lia. Qed.

Lemma inject_Z_le (a b : Z) : a <= b -> (inject_Z a <= inject_Z b)%Q.
Proof. intros Hab. unfold Qle. simpl. lia. Qed.

Lemma ratio_quotient (q : Q) (a b : Z) :
  0 < b -> (q * inject_Z b == inject_Z a)%Q -> (q == inject_Z a / inject_Z b)%Q.
Proof.
  intros Hb Hq. rewrite <- Hq. field. apply inject_Z_nonzero. lia.
Qed.

(** X8. On a fitted model of depth d >= 1, the probability of a window of
    length d is the count that the model holds for the window divided by the
    count it holds for the window's first element (0 when that element has
    no tree). *)
Theorem event_prob_is_count_ratio (m : PST_model.t) (w : list label) :
  fitted m -> 1 <= PST_model._depth m -> len w = PST_model._depth m ->
  exists q,
    PST_model.get_event_prob m w = Ok (VNum q) /\
    (q == inject_Z (model_count m w) / inject_Z (model_count m (firstn 1 w)))%Q.
Proof.
  intros Hfit Hd Hlen.
  destruct w as [|first rest]; [unfold len in Hlen; simpl in Hlen; lia|].
  cbn [firstn].
  destruct (PST_model.get_PST_by_name m first) as [t|] eqn:Hfind.
  - destruct (event_prob_ratio m first rest Hfit Hd Hlen) as (q & Hq & Hratio & _ & Hpos).
    exists q. split; [exact Hq|].
    apply ratio_quotient; [apply Hpos; congruence | exact Hratio].
  - exists 0%Q. split.
    + unfold PST_model.get_event_prob. rewrite Hlen, Z.eqb_refl, Hfind. reflexivity.
    + unfold model_count. rewrite Hfind. reflexivity.
Qed.

Lemma event_prob_is_count_ratio_witness :
  fitted chain_fitted /\ 1 <= PST_model._depth chain_fitted /\
  len ["A"; "B"; "C"]%string = PST_model._depth chain_fitted /\
  exists q,
    PST_model.get_event_prob chain_fitted ["A"; "B"; "C"]%string = Ok (VNum q) /\
    (q == inject_Z 2 / inject_Z 3)%Q.
Proof.
  assert (Hd : 1 <= PST_model._depth chain_fitted) by (vm_compute; discriminate).
  split; [exact chain_fitted_fitted|]. split; [exact Hd|]. split; [reflexivity|].
  exact (event_prob_is_count_ratio chain_fitted ["A"; "B"; "C"]%string
           chain_fitted_fitted Hd eq_refl).
Defined.

Lemma fit_model_count (m m' : PST_model.t) (chain q : list label) :
  PST_model.fit m chain = Ok m' -> q <> [] ->
  model_count m' q = model_count m q + starting_with q (PST_model._get_subchains m chain).
Proof.
  unfold PST_model.fit, PST_model.fit_subchains. intros H Hq.
  apply bind_Ok in H. destruct H as (m1 & Hloop & Heval).
  rewrite (evaluate_trees_count _ _ q Heval). exact (fit_loop_count _ _ _ _ Hloop Hq).
Qed.

(** X9. Probabilities are training frequencies.  On a model of depth
    d >= 1 fitted once on a sequence, the probability of a window w of
    length d is the number of windows of the sequence that begin with w (the
    windows equal to w) divided by the number of those that begin with the
    first element of w. *)
Theorem event_prob_is_frequency (depth : Z) (chain w : list label) (m : PST_model.t) :
  1 <= depth -> PST_model.fit (PST_model.init depth) chain = Ok m -> len w = depth ->
  exists q,
    PST_model.get_event_prob m w = Ok (VNum q) /\
    (q == inject_Z (starting_with w (PST_model._get_subchains (PST_model.init depth) chain))
          / inject_Z (starting_with (firstn 1 w)
                        (PST_model._get_subchains (PST_model.init depth) chain)))%Q.
Proof.
  intros Hd Hfit Hlen.
  pose proof (fit_depth _ _ _ Hfit) as Hdepth. simpl in Hdepth.
  assert (Hfitted : fitted m) by exact (fitted_fit _ _ _ (fitted_init depth) Hfit).
  destruct w as [|first rest]; [unfold len in Hlen; simpl in Hlen; lia|].
  assert (Hw : model_count m (first :: rest)
               = starting_with (first :: rest)
                   (PST_model._get_subchains (PST_model.init depth) chain)).
  { rewrite (fit_model_count _ _ _ _ Hfit) by discriminate. reflexivity. }
  assert (H1 : model_count m [first]
               = starting_with [first]
                   (PST_model._get_subchains (PST_model.init depth) chain)).
  { rewrite (fit_model_count _ _ _ _ Hfit) by discriminate. reflexivity. }
  cbn [firstn]. rewrite <- Hw, <- H1.
  destruct (PST_model.get_PST_by_name m first) as [t|] eqn:Hfind.
  - destruct (event_prob_ratio m first rest Hfitted ltac:(lia) ltac:(lia))
      as (q & Hq & Hratio & _ & Hpos).
    exists q. split; [exact Hq|].
    apply ratio_quotient; [apply Hpos; congruence | exact Hratio].
  - exists 0%Q. split.
    + unfold PST_model.get_event_prob. rewrite Hlen, Hdepth, Z.eqb_refl, Hfind. reflexivity.
    + unfold model_count. rewrite Hfind. reflexivity.
Qed.

Lemma event_prob_is_frequency_witness :
  1 <= 3 /\ PST_model.fit (PST_model.init 3) scenario_chain = Ok chain_fitted /\
  len ["A"; "B"; "D"]%string = 3 /\
  exists q,
    PST_model.get_event_prob chain_fitted ["A"; "B"; "D"]%string = Ok (VNum q) /\
    (q == inject_Z 1 / inject_Z 3)%Q.
Proof.
  split; [lia|]. split; [reflexivity|]. split; [reflexivity|].
  exact (event_prob_is_frequency 3 scenario_chain ["A"; "B"; "D"]%string chain_fitted
           ltac:(lia) eq_refl eq_refl).
Defined.

(** X10. On a fitted model of depth d >= 1 a query never raises: a window
    of another length gets the invalid result [None], and a window of length
    d gets a number between 0 and 1. *)
Theorem get_event_prob_range (m : PST_model.t) (w : list label) :
  fitted m -> 1 <= PST_model._depth m ->
  exists v,
    PST_model.get_event_prob m w = Ok v /\
    match v with
    | VNone => len w <> PST_model._depth m
    | VNaN => False
    | VNum q => len w = PST_model._depth m /\ (0 <= q)%Q /\ (q <= 1)%Q
    end.
Proof.
  intros Hfit Hd.
  destruct (Z.eq_dec (len w) (PST_model._depth m)) as [Hlen|Hlen].
  - destruct w as [|first rest]; [unfold len in Hlen; simpl in Hlen; lia|].
    destruct (PST_model.get_PST_by_name m first) as [t|] eqn:Hfind.
    + destruct (event_prob_ratio m first rest Hfit Hd Hlen)
        as (q & Hq & Hratio & Hbounds & Hpos).
      exists (VNum q). split; [exact Hq|]. split; [exact Hlen|].
      assert (H0 : 0 < model_count m [first]) by (apply Hpos; congruence).
      pose proof (ratio_quotient _ _ _ H0 Hratio) as Hquot.
      rewrite Hquot. split.
      * apply Qle_shift_div_l; [apply inject_Z_positive; exact H0|].
        rewrite Qmult_0_l. apply (inject_Z_le 0). lia.
      * apply Qle_shift_div_r; [apply inject_Z_positive; exact H0|].
        rewrite Qmult_1_l. apply inject_Z_le. lia.
    + exists (VNum 0). split.
      * unfold PST_model.get_event_prob. rewrite Hlen, Z.eqb_refl, Hfind. reflexivity.
      * split; [exact Hlen|]. split; [apply Qle_refl | unfold Qle; simpl; lia].
  - exists VNone. split; [|exact Hlen].
    unfold PST_model.get_event_prob.
    destruct (Z.eqb_spec (len w) (PST_model._depth m)); [contradiction | reflexivity].
Qed.

Lemma get_event_prob_range_witness :
  fitted chain_fitted /\ 1 <= PST_model._depth chain_fitted /\
  exists v, PST_model.get_event_prob chain_fitted ["B"; "C"; "A"]%string = Ok v.
Proof.
  assert (Hd : 1 <= PST_model._depth chain_fitted) by (vm_compute; discriminate).
  split; [exact chain_fitted_fitted|]. split; [exact Hd|].
  destruct (get_event_prob_range chain_fitted ["B"; "C"; "A"]%string
              chain_fitted_fitted Hd) as (v & Hv & _).
  exists v. exact Hv.
Defined.

Lemma is_prefix_refl (w : list label) : is_prefix w w = true.
Proof.
  induction w as [|a w IH]; [reflexivity|]. simpl. rewrite String.eqb_refl. exact IH.
Qed.

Lemma starting_with_member (w : list label) (ws : list (list label)) :
  In w ws -> 1 <= starting_with w ws.
Proof.
  intros Hin. unfold starting_with, len.
  assert (Hf : In w (filter (is_prefix w) ws)).
  { apply filter_In. split; [exact Hin | apply is_prefix_refl]. }
  destruct (filter (is_prefix w) ws); [contradiction | simpl length; lia].
Qed.

(** X11. Every window seen in training is possible afterwards: after [fit]
    of a sequence on a fitted model of depth d >= 1, each window of that
    sequence has a probability that is strictly positive. *)
Theorem trained_window_positive (m m' : PST_model.t) (chain w : list label) :
  fitted m -> 1 <= PST_model._depth m ->
  PST_model.fit m chain = Ok m' ->
  In w (PST_model._get_subchains m chain) ->
  exists q, PST_model.get_event_prob m' w = Ok (VNum q) /\ (0 < q)%Q.
Proof.
  intros Hfit Hd Hfit' Hin.
  pose proof (fit_depth _ _ _ Hfit') as Hdepth.
  pose proof (fitted_fit _ _ _ Hfit Hfit') as Hfitted'.
  pose proof (windows_length m chain w ltac:(lia) Hin) as Hlen.
  destruct w as [|first rest]; [unfold len in Hlen; simpl in Hlen; lia|].
  destruct (event_prob_ratio m first rest Hfit Hd Hlen) as (_ & _ & _ & Hold & _).
  destruct (event_prob_ratio m' first rest Hfitted' ltac:(lia) ltac:(lia))
    as (q & Hq & Hratio & Hbounds & _).
  pose proof (fit_model_count _ _ _ (first :: rest) Hfit' ltac:(discriminate)) as Hcount.
  pose proof (starting_with_member _ _ Hin) as Hseen.
  exists q. split; [exact Hq|].
  assert (H0 : 0 < model_count m' [first]) by lia.
  rewrite (ratio_quotient _ _ _ H0 Hratio).
  apply Qlt_shift_div_l; [apply inject_Z_positive; exact H0|].
  rewrite Qmult_0_l. apply inject_Z_positive. lia.
Qed.

Lemma trained_window_positive_witness :
  fitted (PST_model.init 3) /\ 1 <= PST_model._depth (PST_model.init 3) /\
  PST_model.fit (PST_model.init 3) scenario_chain = Ok chain_fitted /\
  In ["D"; "A"; "B"]%string (PST_model._get_subchains (PST_model.init 3) scenario_chain) /\
  exists q, PST_model.get_event_prob chain_fitted ["D"; "A"; "B"]%string = Ok (VNum q) /\
            (0 < q)%Q.
Proof.
  assert (Hd : 1 <= PST_model._depth (PST_model.init 3)) by (simpl; lia).
  assert (Hin : In ["D"; "A"; "B"]%string
                   (PST_model._get_subchains (PST_model.init 3) scenario_chain)).
  { do 5 right. left. reflexivity. }
  split; [exact (fitted_init 3)|]. split; [exact Hd|]. split; [reflexivity|].
  split; [exact Hin|].
  exact (trained_window_positive (PST_model.init 3) chain_fitted scenario_chain
           ["D"; "A"; "B"]%string (fitted_init 3) Hd eq_refl Hin).
Defined.

(** ** Distances never raise on evaluated trees *)

Lemma square_nonneg (a : Q) : (0 <= a ^ 2)%Q.
Proof.
  simpl. unfold Qle, Qmult. simpl. rewrite Z.mul_1_r. apply Z.square_nonneg.
Qed.

Lemma distance_loop_nonneg (other : option Node.t) (l : list (Node.t * Node.info)) :
  forallb (fun e => match Node.p (snd e) with Some _ => true | None => false end) l = true ->
  (forall o, other = Some o -> children_evaluated o = true) ->
  forall acc, exists d, Node.distance_loop other l acc = Ok d /\ (acc <= d)%Q.
Proof.
  intros Hev Hother acc.
  destruct (distance_loop_spec other l Hev Hother acc) as (d & ts & Hloop & Hts & Hd).
  exists d. split; [exact Hloop|]. rewrite Hd.
  assert (Hsum : (0 <= Qsum ts)%Q).
  { clear Hloop Hd acc. revert ts Hts.
    induction l as [|[c1 i1] l IH]; simpl; intros ts Hts.
    - injection Hts as <-. apply Qle_refl.
    - simpl in Hev. apply andb_prop in Hev. destruct Hev as [_ Hev].
      destruct (Node.p i1) as [p1|]; [|discriminate].
      destruct (spec_term other (Node.name c1) p1) as [x|] eqn:Hx; [|discriminate].
      destruct (spec_terms other l) as [ts'|]; [|discriminate].
      injection Hts as <-. simpl.
      assert (H0 : (0 <= x)%Q).
      { unfold spec_term in Hx. destruct other as [o|].
        - destruct (same_labelled o (Node.name c1)) as [[c2 i2]|].
          + destruct (Node.p i2); [|discriminate]. injection Hx as <-. apply square_nonneg.
          + injection Hx as <-. apply square_nonneg.
        - injection Hx as <-. apply square_nonneg. }
      pose proof (IH Hev _ eq_refl) as Hrest.
      replace 0%Q with (0 + 0)%Q by reflexivity. apply Qplus_le_compat; assumption. }
  rewrite <- (Qplus_0_r acc) at 1. apply Qplus_le_compat; [apply Qle_refl | exact Hsum].
Qed.

Lemma node_distance_nonneg (n : Node.t) (other : option Node.t) :
  children_evaluated n = true ->
  (forall o, other = Some o -> children_evaluated o = true) ->
  exists d, Node.get_node_distance n other = Ok d /\ (0 <= d)%Q.
Proof.
  intros Hev Hother. unfold Node.get_node_distance.
  destruct (Node.has_children n); simpl.
  - exact (distance_loop_nonneg other _ Hev Hother 0%Q).
  - exists 0%Q. split; [reflexivity | apply Qle_refl].
Qed.

Lemma distance_children_nonneg (node2 : option Node.t) (l : list (Node.t * Node.info)) :
  (forall o, node2 = Some o -> evaluated o = true) ->
  Forall (fun e => forall o acc,
              (forall o', o = Some o' -> evaluated o' = true) ->
              exists d, PST.get_node_distance (fst e) o acc = Ok d /\ (acc <= d)%Q) l ->
  forall acc, exists d,
      PST.distance_children PST.get_node_distance node2 l acc = Ok d /\ (acc <= d)%Q.
Proof.
  intros Hother. induction 1 as [|[c1 i1] l Hc _ IH]; intros acc.
  - exists acc. split; [reflexivity | apply Qle_refl].
  - simpl in Hc. cbn [PST.distance_children].
    assert (Hstep : exists o, (forall o', o = Some o' -> evaluated o' = true) /\
              match node2 with
              | None => distance' <- PST.get_node_distance c1 None acc ;;
                        PST.distance_children PST.get_node_distance node2 l distance'
              | Some nd =>
                  if existsb (String.eqb (Node.name c1))
                             (map (fun e => Node.name (fst e)) (Node.children nd))
                  then distance' <- PST.get_node_distance c1
                                      (Node.get_child_by_name nd (Node.name c1)) acc ;;
                       PST.distance_children PST.get_node_distance node2 l distance'
                  else distance' <- PST.get_node_distance c1 None acc ;;
                       PST.distance_children PST.get_node_distance node2 l distance'
              end
              = (distance' <- PST.get_node_distance c1 o acc ;;
                 PST.distance_children PST.get_node_distance node2 l distance')).
    { destruct node2 as [nd|].
      - destruct (existsb _ _).
        + exists (Node.get_child_by_name nd (Node.name c1)). split; [|reflexivity].
          intros o' Ho'. destruct (scan_Some _ _ _ Ho') as (_ & i & _ & Hin).
          exact (all_nodes_child _ _ _ _ (Hother nd eq_refl) Hin).
        + exists None. split; [discriminate | reflexivity].
      - exists None. split; [discriminate | reflexivity]. }
    destruct Hstep as (o & Ho & ->).
    destruct (Hc o acc Ho) as (d1 & H1 & Hle1). rewrite H1. simpl.
    destruct (IH d1) as (d & Hd & Hle). exists d. split; [exact Hd|].
    exact (Qle_trans _ _ _ Hle1 Hle).
Qed.

Lemma tree_distance_nonneg (n : Node.t) :
  evaluated n = true ->
  forall o acc,
    (forall o', o = Some o' -> evaluated o' = true) ->
    exists d, PST.get_node_distance n o acc = Ok d /\ (acc <= d)%Q.
Proof.
  induction n as [nm lv ch hc IH] using Node_induction. intros Hev o acc Ho.
  rewrite tree_distance_unfold. simpl.
  destruct hc; simpl; [|exists acc; split; [reflexivity | apply Qle_refl]].
  destruct (node_distance_nonneg (Node.mk nm lv ch true) o (all_nodes_here _ _ Hev))
    as (d0 & H0 & Hle0).
  { intros o' Ho'. exact (all_nodes_here _ _ (Ho o' Ho')). }
  rewrite H0. simpl.
  destruct (distance_children_nonneg o ch Ho) with (acc := (acc + d0)%Q)
    as (d & Hd & Hle).
  - rewrite Forall_forall in *. intros [c i] Hin. simpl. intros o2 acc2 Ho2.
    exact (IH _ Hin (all_nodes_child _ _ _ _ Hev Hin) o2 acc2 Ho2).
  - exists d. split; [exact Hd|].
    apply (Qle_trans _ (acc + d0)%Q); [|exact Hle].
    rewrite <- (Qplus_0_r acc) at 1. apply Qplus_le_compat; [apply Qle_refl | exact Hle0].
Qed.

(** X12. The distance between two evaluated trees never raises and is not
    negative. *)
Theorem get_distance_nonneg (t1 t2 : PST.t) :
  evaluated (PST.root t1) = true -> evaluated (PST.root t2) = true ->
  exists d, PST.get_distance t1 t2 = Ok d /\ (0 <= d)%Q.
Proof.
  intros H1 H2. unfold PST.get_distance.
  apply (tree_distance_nonneg _ H1). intros o' Ho'. injection Ho' as <-. exact H2.
Qed.

Lemma get_distance_nonneg_witness :
  evaluated (PST.root scenario_tree_A) = true /\
  exists d, PST.get_distance scenario_tree_A scenario_tree_A = Ok d /\ (0 <= d)%Q.
Proof.
  split; [reflexivity|].
  exact (get_distance_nonneg scenario_tree_A scenario_tree_A eq_refl eq_refl).
Defined.

Lemma node_distance_unevaluated (n : Node.t) (other : option Node.t)
  (c : Node.t) (i : Node.info) (rest : list (Node.t * Node.info)) :
  Node.has_children n = true -> Node.children n = (c, i) :: rest -> Node.p i = None ->
  Node.get_node_distance n other = Raise KeyError.
Proof.
  intros Hflag Hch Hp. unfold Node.get_node_distance. rewrite Hflag, Hch.
  cbn [negb Node.distance_loop]. unfold Node.get_p. rewrite Hp.
  destruct other as [nd|]; [|reflexivity].
  destruct (existsb _ _); [|reflexivity].
  destruct (Node.get_child_by_name nd (Node.name c)) as [child2|] eqn:Hc2; [|reflexivity].
  destruct (scan_Some _ _ _ Hc2) as (Hname & i2 & Hget & _).
  rewrite Hname, Hget. reflexivity.
Qed.

(** X13. A tree that was never evaluated has no probabilities: the distance
    from a tree just constructed from a chain of two elements or more, to
    any tree, raises KeyError. *)
Theorem get_distance_before_evaluation (chain : list label) (t other : PST.t) :
  PST.init chain = Ok t -> 2 <= len chain ->
  PST.get_distance t other = Raise KeyError.
Proof.
  intros Hinit Hlen.
  destruct chain as [|first [|e rest]]; try (unfold len in Hlen; simpl in Hlen; lia).
  unfold PST.init in Hinit. rewrite init_path_absorb in Hinit by reflexivity.
  unfold Node.init in Hinit. rewrite absorb_linear in Hinit.
  injection Hinit as <-. unfold PST.get_distance. cbn [PST.root].
  rewrite tree_distance_unfold. cbn [linear_path Node.has_children negb].
  rewrite (node_distance_unevaluated _ _ (linear_path e (0 + 1) rest)
             (Node.mkInfo 1 None) []); reflexivity.
Qed.

Lemma get_distance_before_evaluation_witness :
  PST.init ["A"; "B"]%string
  = Ok (PST.mk (linear_path "A"%string 0 ["B"%string]) "A"%string 2 0) /\
  2 <= len ["A"; "B"]%string /\
  PST.get_distance (PST.mk (linear_path "A"%string 0 ["B"%string]) "A"%string 2 0)
                   scenario_tree_A = Raise KeyError.
Proof.
  split; [reflexivity|]. split; [vm_compute; discriminate|].
  exact (get_distance_before_evaluation ["A"; "B"]%string _ scenario_tree_A eq_refl
           ltac:(vm_compute; discriminate)).
Defined.

(** X14. A sequence that has no more elements than the depth has no
    window, and its probabilities are the sentinels alone: [depth] times NaN,
    whatever the model holds. *)
Theorem get_chain_prob_short (m : PST_model.t) (chain : list label) :
  len chain <= PST_model._depth m ->
  PST_model.get_chain_prob m chain = Ok (py_repeat VNaN (PST_model._depth m)).
Proof.
  intros Hlen. unfold PST_model.get_chain_prob, PST_model._get_subchains, py_range.
  replace (Z.to_nat (len chain - PST_model._depth m)) with 0%nat by lia.
  simpl. rewrite app_nil_r. reflexivity.
Qed.

Lemma get_chain_prob_short_witness :
  len ["A"; "B"; "C"]%string <= PST_model._depth chain_fitted /\
  PST_model.get_chain_prob chain_fitted ["A"; "B"; "C"]%string = Ok [VNaN; VNaN; VNaN].
Proof.
  assert (Hlen : len ["A"; "B"; "C"]%string <= PST_model._depth chain_fitted)
    by (vm_compute; discriminate).
  split; [exact Hlen|].
  exact (get_chain_prob_short chain_fitted ["A"; "B"; "C"]%string Hlen).
Defined.

(** ** Paths and levels *)

Lemma descend_absorb (elems : list label) :
  forall n, exists n', descend (PST.absorb n elems) elems = Some n'.
Proof.
  induction elems as [|x xs IH]; intros n; [exists n; reflexivity|].
  cbn [descend]. rewrite child_absorb, String.eqb_refl. apply IH.
Qed.

(** X15. What absorbing a chain does to a tree: the count of every path
    that is a prefix of the chain after its first element grows by 1, as
    does the number of chains given to the tree; every other count is
    unchanged; and afterwards the tree has the path of the chain. *)
Theorem add_subchain_counts (t : PST.t) (subchain path : list label) :
  tree_count (PST.add_subchain t subchain) path
  = tree_count t path + (if is_prefix path (tl subchain) then 1 else 0) /\
  exists n, descend (PST.root (PST.add_subchain t subchain)) (tl subchain) = Some n.
Proof.
  split; [apply tree_count_add_subchain|]. apply descend_absorb.
Qed.

Lemma level_absorb (elems : list label) (n : Node.t) :
  Node.level (PST.absorb n elems) = Node.level n.
Proof.
  destruct elems as [|x xs]; [reflexivity|].
  destruct (Node.scan (Node.children n) x) as [child|] eqn:Hscan.
  - destruct (absorb_found n child x xs Hscan) as (pre & i & post & _ & _ & ->). reflexivity.
  - rewrite (absorb_fresh n x xs Hscan). reflexivity.
Qed.

Lemma levels_absorb (elems : list label) :
  forall n, all_nodes levels_ok n = true ->
            all_nodes levels_ok (PST.absorb n elems) = true.
Proof.
  induction elems as [|x xs IH]; intros n Hn; [exact Hn|].
  pose proof Hn as Hn'. apply all_nodes_mk in Hn'. destruct Hn' as [Hhere Hsub].
  unfold levels_ok in Hhere.
  destruct (Node.scan (Node.children n) x) as [child|] eqn:Hscan.
  - destruct (absorb_found n child x xs Hscan) as (pre & i & post & Hsplit & _ & ->).
    rewrite Hsplit in Hhere, Hsub.
    rewrite forallb_app in Hhere. apply andb_prop in Hhere. destruct Hhere as [Hpre Hpost].
    simpl in Hpost. apply andb_prop in Hpost. destruct Hpost as [Hmid Hpost].
    apply Forall_app in Hsub. destruct Hsub as [Spre Spost].
    apply all_nodes_mk. unfold levels_ok. simpl. split.
    + rewrite forallb_app. simpl. rewrite Hpre, Hpost, level_absorb, Hmid. reflexivity.
    + apply Forall_app. split; [exact Spre|].
      constructor; [|exact (Forall_inv_tail Spost)].
      simpl. apply IH. exact (Forall_inv Spost).
  - rewrite (absorb_fresh n x xs Hscan).
    apply all_nodes_mk. unfold levels_ok. simpl. split.
    + rewrite forallb_app. simpl. rewrite Hhere, level_absorb. simpl.
      rewrite Z.eqb_refl. reflexivity.
    + apply Forall_app. split; [exact Hsub|]. constructor; [|constructor].
      simpl. apply IH. reflexivity.
Qed.

Lemma evaluate_level (n n' : Node.t) :
  PST.evaluate_node_probability n = Ok n' -> Node.level n' = Node.level n.
Proof.
  intros H. apply evaluate_cases in H.
  destruct H as [[_ ->] | (_ & _ & ch' & -> & _)]; reflexivity.
Qed.

Lemma levels_evaluate (n : Node.t) :
  forall n', PST.evaluate_node_probability n = Ok n' ->
             all_nodes levels_ok n = true -> all_nodes levels_ok n' = true.
Proof.
  induction n as [nm lv ch hc IH] using Node_induction. intros n' H Hok.
  apply evaluate_cases in H. simpl in H.
  destruct H as [[_ ->] | (_ & _ & ch' & -> & Hall)]; [exact Hok|].
  apply all_nodes_mk in Hok. simpl in Hok. destruct Hok as [Hhere Hsub].
  unfold levels_ok in Hhere. simpl in Hhere. rewrite forallb_forall in Hhere.
  assert (Hboth : Forall (fun e => (forall n', PST.evaluate_node_probability (fst e) = Ok n' ->
                                        all_nodes levels_ok (fst e) = true ->
                                        all_nodes levels_ok n' = true) /\
                                   all_nodes levels_ok (fst e) = true /\
                                   (Node.level (fst e) =? lv + 1) = true) ch).
  { rewrite Forall_forall in *. intros e He.
    split; [exact (IH e He)|]. split; [exact (Hsub e He) | exact (Hhere e He)]. }
  apply all_nodes_mk. simpl. split.
  - unfold levels_ok. simpl. apply forallb_forall. apply Forall_forall.
    apply (Forall2_transfer _ _ _ _ _ Hall Hboth).
    intros e e' (_ & _ & Hlv) [Hrec _]. rewrite (evaluate_level _ _ Hrec). exact Hlv.
  - apply (Forall2_transfer _ _ _ _ _ Hall Hboth).
    intros e e' (IHe & Hoke & _) [Hrec _]. exact (IHe _ Hrec Hoke).
Qed.

Lemma built_levels (t : PST.t) :
  built t -> Node.level (PST.root t) = 0 /\ all_nodes levels_ok (PST.root t) = true.
Proof.
  induction 1 as [chain t Hinit | t subchain _ [IH0 IH] | t t' _ [IH0 IH] Heval].
  - destruct (init_root _ _ Hinit) as (first & rest & _ & -> & _).
    split; [rewrite level_absorb; reflexivity | apply levels_absorb; reflexivity].
  - simpl. split; [rewrite level_absorb; exact IH0 | apply levels_absorb; exact IH].
  - unfold PST.evaluate_probability in Heval.
    apply bind_Ok in Heval. destruct Heval as (root' & Hroot & Heval).
    injection Heval as <-. simpl.
    split; [rewrite (evaluate_level _ _ Hroot); exact IH0 | exact (levels_evaluate _ _ Hroot IH)].
Qed.

Lemma descend_level (path : list label) :
  forall n n', all_nodes levels_ok n = true -> descend n path = Some n' ->
               Node.level n' = Node.level n + len path.
Proof.
  induction path as [|e rest IH]; simpl; intros n n' Hok Hd.
  - injection Hd as <-. unfold len. simpl. lia.
  - destruct (Node.get_child_by_name n e) as [child|] eqn:Hc; [|discriminate].
    destruct (scan_Some _ _ _ Hc) as (_ & i & _ & Hin).
    rewrite (IH _ _ (all_nodes_child _ _ _ _ Hok Hin) Hd).
    pose proof (all_nodes_here _ _ Hok) as Hhere. unfold levels_ok in Hhere.
    rewrite forallb_forall in Hhere. specialize (Hhere _ Hin). simpl in Hhere.
    apply Z.eqb_eq in Hhere. unfold len. simpl length. lia.
Qed.

(** X16. Levels are distances from the root: in a tree that the class
    builds, the node reached from the root along a path of k labels has
    level k. *)
Theorem level_is_path_length (t : PST.t) (path : list label) (n : Node.t) :
  built t -> descend (PST.root t) path = Some n -> Node.level n = len path.
Proof.
  intros Hb Hd. destruct (built_levels t Hb) as [H0 Hok].
  rewrite (descend_level path _ _ Hok Hd), H0. lia.
Qed.

Lemma level_is_path_length_witness :
  built scenario_counted_tree /\
  descend (PST.root scenario_counted_tree) ["B"; "D"]%string
  = Some (Node.mk "D"%string 2 [] false) /\
  Node.level (Node.mk "D"%string 2 [] false) = len ["B"; "D"]%string.
Proof.
  split; [exact scenario_counted_tree_built|]. split; [reflexivity|].
  exact (level_is_path_length scenario_counted_tree ["B"; "D"]%string _
           scenario_counted_tree_built eq_refl).
Defined.

Lemma flow_descend (path : list label) :
  forall h c n n',
    flow h c n -> 0 < c -> all_nodes counts_positive n = true ->
    descend n path = Some n' ->
    (length path <= h)%nat /\ exists c', 0 < c' /\ flow (h - length path) c' n'.
Proof.
  induction path as [|e rest IH]; simpl; intros h c n n' Hflow Hc Hpos Hd.
  - injection Hd as <-. split; [lia|]. exists c. rewrite Nat.sub_0_r. split; assumption.
  - destruct (Node.get_child_by_name n e) as [child|] eqn:Hscan; [|discriminate].
    destruct (scan_Some _ _ _ Hscan) as (_ & i & _ & Hin).
    destruct h as [|h]; [simpl in Hflow; rewrite Hflow in Hin; contradiction|].
    cbn [flow] in Hflow. destruct Hflow as [_ Hall].
    rewrite Forall_forall in Hall. specialize (Hall _ Hin). simpl in Hall.
    pose proof (all_nodes_here _ _ Hpos) as Hhere. unfold counts_positive in Hhere.
    rewrite forallb_forall in Hhere. specialize (Hhere _ Hin). simpl in Hhere.
    apply Z.leb_le in Hhere.
    destruct (IH h _ child n' Hall ltac:(lia) (all_nodes_child _ _ _ _ Hpos Hin) Hd)
      as (Hle & c' & Hc' & Hflow').
    split; [lia|]. exists c'. split; [exact Hc' | exact Hflow'].
Qed.

Lemma flow_leaf_iff (h : nat) (c : Z) (n : Node.t) :
  flow h c n -> 0 < c -> (Node.children n = [] <-> h = 0%nat).
Proof.
  intros Hflow Hc. destruct h as [|h]; simpl in Hflow.
  - split; intros _; [reflexivity | exact Hflow].
  - destruct Hflow as [Hsum _]. split; [|discriminate].
    intros Hleaf. rewrite Hleaf in Hsum. change (PST.cnt_sum []) with 0 in Hsum. lia.
Qed.

(** X17. In a fitted model of depth d >= 1 every tree has its leaves at
    distance d - 1 from the root and nowhere else: a path from the root has
    at most d - 1 labels, and the node it reaches has no children exactly
    when the path has d - 1 labels. *)
Theorem fitted_tree_height (m : PST_model.t) (t : PST.t) (path : list label) (n : Node.t) :
  fitted m -> 1 <= PST_model._depth m -> In t (PST_model.trees m) ->
  descend (PST.root t) path = Some n ->
  len path <= PST_model._depth m - 1 /\
  (Node.children n = [] <-> len path = PST_model._depth m - 1).
Proof.
  intros Hfit Hd Hin Hpath.
  destruct (fitted_invariant m Hfit ltac:(lia)) as [Hall _].
  rewrite Forall_forall in Hall.
  destruct (Hall t Hin) as [(Hb & _ & _ & Hpower & Hflow) _].
  assert (Hpos : all_nodes counts_positive (PST.root t) = true).
  { apply (all_nodes_weaken node_ok); [exact node_ok_positive | exact (built_ok t Hb)]. }
  destruct (flow_descend path _ _ _ _ Hflow ltac:(lia) Hpos Hpath)
    as (Hle & c' & Hc' & Hflow').
  pose proof (flow_leaf_iff _ _ _ Hflow' Hc') as Hleaf.
  unfold len. split; [lia|]. rewrite Hleaf. lia.
Qed.

Lemma fitted_tree_height_witness :
  fitted chain_fitted /\ 1 <= PST_model._depth chain_fitted /\
  In scenario_tree_A (PST_model.trees chain_fitted) /\
  descend (PST.root scenario_tree_A) ["B"%string] = Some scenario_node_B /\
  len ["B"%string] <= PST_model._depth chain_fitted - 1.
Proof.
  assert (Hd : 1 <= PST_model._depth chain_fitted) by (vm_compute; discriminate).
  assert (Hin : In scenario_tree_A (PST_model.trees chain_fitted)) by (left; reflexivity).
  split; [exact chain_fitted_fitted|]. split; [exact Hd|]. split; [exact Hin|].
  split; [reflexivity|].
  exact (proj1 (fitted_tree_height chain_fitted scenario_tree_A ["B"%string]
                  scenario_node_B chain_fitted_fitted Hd Hin eq_refl)).
Defined.

(** ** Lookup after a merge *)

(** X18. Looking up after [add_child]: the child found under the merged
    label is the node that [add_child] returned, and the count on its edge
    has grown by 1 (from 0 when the label is new); the children and counts
    under every other label are as before. *)
Theorem add_child_lookup (self node : Node.t) (e : label) :
  Node.get_child_by_name (fst (Node.add_child self node)) e
  = (if String.eqb e (Node.name node) then Some (snd (Node.add_child self node))
     else Node.get_child_by_name self e) /\
  edge_count (fst (Node.add_child self node)) e
  = edge_count self e + (if String.eqb e (Node.name node) then 1 else 0).
Proof.
  unfold edge_count.
  destruct (Node.get_child_by_name self (Node.name node)) as [child|] eqn:Hc.
  - rewrite (add_child_found _ _ _ Hc). unfold Node.get_child_by_name in *. simpl.
    destruct (incr_count_split _ _ _ Hc) as (pre & i & post & Hsplit & -> & Hpre).
    destruct (scan_Some _ _ _ Hc) as [Hname _]. rewrite Hsplit.
    destruct (lookups_split pre post child child i
                (Node.mkInfo (Node.count i + 1) (Node.p i)) (Node.name node) e
                Hpre Hname Hname) as [-> ->].
    destruct (lookups_split pre post child child i i (Node.name node) e Hpre Hname Hname)
      as [Hscan Hget].
    destruct (String.eqb e (Node.name node)); [|split; [reflexivity | lia]].
    rewrite Hget. split; reflexivity.
  - rewrite (add_child_fresh _ _ Hc). unfold Node.get_child_by_name in *. simpl.
    destruct (lookups_fresh (Node.children self) node (Node.mkInfo 1 None)
                (Node.name node) e Hc eq_refl) as [-> ->].
    destruct (String.eqb_spec e (Node.name node)) as [->|_]; [|split; [reflexivity | lia]].
    rewrite (scan_None_getitem _ _ Hc). split; reflexivity.
Qed.

(** ** The trees of a model only grow *)

Lemma names_evaluated (l l' : list PST.t) :
  mapM PST.evaluate_probability l = Ok l' -> tree_names l' = tree_names l.
Proof.
  revert l'. induction l as [|t0 l IH]; simpl; intros l' H.
  - injection H as <-. reflexivity.
  - apply bind_Ok in H. destruct H as (t0' & Ht0 & H).
    apply bind_Ok in H. destruct H as (rest' & Hrest & H). injection H as <-.
    simpl. rewrite (IH _ Hrest). f_equal.
    unfold PST.evaluate_probability in Ht0.
    apply bind_Ok in Ht0. destruct Ht0 as (root' & _ & Ht0).
    injection Ht0 as <-. reflexivity.
Qed.

Lemma fit_loop_names (ws : list (list label)) :
  forall m m', PST_model.fit_loop m ws = Ok m' ->
    exists extra,
      tree_names (PST_model.trees m') = tree_names (PST_model.trees m) ++ extra /\
      Forall (fun a => exists w, In w ws /\ hd_error w = Some a) extra.
Proof.
  induction ws as [|w ws IH]; simpl; intros m m' Hloop.
  - injection Hloop as <-. exists []. rewrite app_nil_r. split; [reflexivity | constructor].
  - apply bind_Ok in Hloop. destruct Hloop as (m1 & Hstep & Hloop).
    destruct (IH _ _ Hloop) as (extra & Hnames & Hextra).
    assert (Hlater : Forall (fun a => exists w0, (w = w0 \/ In w0 ws) /\ hd_error w0 = Some a)
                            extra).
    { revert Hextra. apply Forall_impl. intros a (w0 & Hin & Hhd).
      exists w0. split; [right; exact Hin | exact Hhd]. }
    unfold PST_model.fit_step in Hstep.
    destruct w as [|first rest]; [discriminate|].
    destruct (PST_model.get_PST_by_name m first).
    + injection Hstep as <-. simpl in Hnames. rewrite names_absorb_into in Hnames.
      exists extra. split; [exact Hnames | exact Hlater].
    + apply bind_Ok in Hstep. destruct Hstep as (new_pst & Hinit & Hstep).
      injection Hstep as <-. simpl in Hnames.
      destruct (init_root _ _ Hinit) as (f & r & Hchain & _ & Hname & _).
      injection Hchain as <- <-.
      exists (first :: extra). split.
      * rewrite Hnames. unfold tree_names. rewrite map_app. simpl.
        rewrite Hname, <- app_assoc. reflexivity.
      * constructor; [|exact Hlater].
        exists (first :: rest). split; [left; reflexivity | reflexivity].
Qed.

(** X19. Training never removes or reorders trees: after [fit] the labels
    of the trees are the labels from before, in the same order, followed by
    new ones, each of which is the first element of a window of the training
    sequence. *)
Theorem fit_keeps_trees (m m' : PST_model.t) (chain : list label) :
  PST_model.fit m chain = Ok m' ->
  exists extra,
    tree_names (PST_model.trees m') = tree_names (PST_model.trees m) ++ extra /\
    Forall (fun a => exists w, In w (PST_model._get_subchains m chain) /\
                               hd_error w = Some a) extra.
Proof.
  unfold PST_model.fit, PST_model.fit_subchains, PST_model.evaluate_trees. intros H.
  apply bind_Ok in H. destruct H as (m1 & Hloop & H).
  apply bind_Ok in H. destruct H as (trees' & Htrees & H). injection H as <-. simpl.
  rewrite (names_evaluated _ _ Htrees). exact (fit_loop_names _ _ _ Hloop).
Qed.

Lemma fit_keeps_trees_witness :
  PST_model.fit chain_fitted ["E"; "A"; "B"; "C"; "E"]%string = Ok chain_refitted /\
  exists extra,
    tree_names (PST_model.trees chain_refitted)
    = tree_names (PST_model.trees chain_fitted) ++ extra.
Proof.
  split; [reflexivity|].
  destruct (fit_keeps_trees chain_fitted chain_refitted
              ["E"; "A"; "B"; "C"; "E"]%string eq_refl) as (extra & Hnames & _).
  exists extra. exact Hnames.
Defined.

(** ** Where an entry of the sequence probabilities comes from *)

(** X20. On an evaluated model of depth d >= 1, the entry at position k of
    the probabilities of a sequence, for d <= k < len(sequence), is the
    probability of the d elements that come before position k, that is of the
    slice [k - d : k]; the element at position k itself is not part of it. *)
Theorem get_chain_prob_entry (m : PST_model.t) (chain : list label) (k : Z) :
  1 <= PST_model._depth m -> model_evaluated m = true ->
  PST_model._depth m <= k < len chain ->
  exists res v,
    PST_model.get_chain_prob m chain = Ok res /\
    nth_error res (Z.to_nat k) = Some v /\
    PST_model.get_event_prob m
      (firstn (Z.to_nat (PST_model._depth m))
              (skipn (Z.to_nat (k - PST_model._depth m)) chain)) = Ok v.
Proof.
  intros Hd Hev Hk. unfold PST_model.get_chain_prob.
  destruct (mapM_total (PST_model.get_event_prob m) (PST_model._get_subchains m chain))
    as [probs Hprobs].
  { apply Forall_forall. intros w _. exact (get_event_prob_total m w Hd Hev). }
  rewrite Hprobs. simpl bind.
  set (d := PST_model._depth m) in *.
  assert (Hwin : nth_error (PST_model._get_subchains m chain) (Z.to_nat (k - d))
                 = Some (firstn (Z.to_nat d) (skipn (Z.to_nat (k - d)) chain))).
  { unfold PST_model._get_subchains. fold d.
    rewrite nth_error_map, py_range_nth by lia. simpl.
    rewrite Z2Nat.id by lia.
    destruct (py_slice_inside chain (k - d) d) as [-> _]; [lia | lia | lia |]. reflexivity. }
  pose proof (mapM_pointwise _ _ _ Hprobs) as Hpoint.
  assert (Hnth : nth_error (map Ok probs) (Z.to_nat (k - d))
                 = nth_error (map (PST_model.get_event_prob m)
                                  (PST_model._get_subchains m chain)) (Z.to_nat (k - d)))
    by (rewrite Hpoint; reflexivity).
  rewrite !nth_error_map, Hwin in Hnth. simpl in Hnth.
  destruct (nth_error probs (Z.to_nat (k - d))) as [v|] eqn:Hv; [|discriminate].
  simpl in Hnth. exists (py_repeat VNaN d ++ probs), v.
  injection Hnth as Hnth.
  split; [reflexivity|]. split; [|symmetry; exact Hnth].
  rewrite nth_error_app2; unfold py_repeat; rewrite repeat_length; [|lia].
  replace (Z.to_nat k - Z.to_nat d)%nat with (Z.to_nat (k - d)) by lia. exact Hv.
Qed.

Lemma get_chain_prob_entry_witness :
  1 <= PST_model._depth chain_fitted /\ model_evaluated chain_fitted = true /\
  PST_model._depth chain_fitted <= 3 < len scenario_chain /\
  exists res v,
    PST_model.get_chain_prob chain_fitted scenario_chain = Ok res /\
    nth_error res 3 = Some v /\
    PST_model.get_event_prob chain_fitted ["A"; "B"; "C"]%string = Ok v.
Proof.
  assert (Hd : 1 <= PST_model._depth chain_fitted) by (vm_compute; discriminate).
  assert (Hk : PST_model._depth chain_fitted <= 3 < len scenario_chain)
    by (split; vm_compute; [discriminate | reflexivity]).
  split; [exact Hd|]. split; [reflexivity|]. split; [exact Hk|].
  exact (get_chain_prob_entry chain_fitted scenario_chain 3 Hd eq_refl Hk).
Defined.

(** ** Conservation of counts, flags *)

(** X21. Counts are conserved in a fitted model of depth d >= 1: at the
    root of every tree the counts of the children add up to the number of
    chains given to the tree, [power + 1]; below every edge the counts of the
    children add up to the count of that edge; and this down to the nodes at
    distance d - 1 from the root, which have no children. *)
Theorem fitted_counts_conserved (m : PST_model.t) (t : PST.t) :
  fitted m -> 1 <= PST_model._depth m -> In t (PST_model.trees m) ->
  flow (Z.to_nat (PST_model._depth m - 1)) (PST.power t + 1) (PST.root t).
Proof.
  intros Hfit Hd Hin.
  destruct (fitted_invariant m Hfit ltac:(lia)) as [Hall _].
  rewrite Forall_forall in Hall.
  destruct (Hall t Hin) as [(_ & _ & _ & _ & Hflow) _]. exact Hflow.
Qed.

Lemma fitted_counts_conserved_witness :
  fitted chain_fitted /\ 1 <= PST_model._depth chain_fitted /\
  In scenario_tree_A (PST_model.trees chain_fitted) /\
  PST.cnt_sum (Node.children (PST.root scenario_tree_A)) = PST.power scenario_tree_A + 1.
Proof.
  assert (Hd : 1 <= PST_model._depth chain_fitted) by (vm_compute; discriminate).
  assert (Hin : In scenario_tree_A (PST_model.trees chain_fitted)) by (left; reflexivity).
  split; [exact chain_fitted_fitted|]. split; [exact Hd|]. split; [exact Hin|].
  exact (proj1 (fitted_counts_conserved chain_fitted scenario_tree_A
                  chain_fitted_fitted Hd Hin)).
Defined.

(** X22. At every node of a tree that the class builds, the flag
    [has_children] is set exactly when the node has a child, and every count
    is at least 1. *)
Theorem built_flags_and_counts (t : PST.t) (n : Node.t) :
  built t -> In n (subnodes (PST.root t)) ->
  (Node.has_children n = true <-> Node.children n <> []) /\
  Forall (fun e => 1 <= Node.count (snd e)) (Node.children n).
Proof.
  intros Hb Hin.
  pose proof (all_nodes_In _ _ _ (built_ok t Hb) Hin) as Hok.
  pose proof (node_ok_flag _ Hok) as Hflag.
  pose proof (node_ok_positive _ Hok) as Hpos.
  unfold flag_ok in Hflag. apply Bool.eqb_prop in Hflag.
  unfold counts_positive in Hpos. rewrite forallb_forall in Hpos.
  split.
  - rewrite Hflag. destruct (Node.children n) as [|e l]; simpl.
    + split; [discriminate | congruence].
    + split; [discriminate | reflexivity].
  - apply Forall_forall. intros e He. apply Z.leb_le. exact (Hpos e He).
Qed.

Lemma built_flags_and_counts_witness :
  built scenario_counted_tree /\
  In (PST.root scenario_counted_tree) (subnodes (PST.root scenario_counted_tree)) /\
  (Node.has_children (PST.root scenario_counted_tree) = true <->
   Node.children (PST.root scenario_counted_tree) <> []).
Proof.
  assert (Hin : In (PST.root scenario_counted_tree)
                   (subnodes (PST.root scenario_counted_tree))) by (left; reflexivity).
  split; [exact scenario_counted_tree_built|]. split; [exact Hin|].
  exact (proj1 (built_flags_and_counts scenario_counted_tree _
                  scenario_counted_tree_built Hin)).
Defined.
